(** * pulsar.async.stream: socket stream transports

    A shallow embedding of [pulsar/async/stream.py]: the plain and TLS
    stream transports ([write], [_ready_write], [_ready_read],
    [pause_reading], [resume_reading], [_do_handshake]) and the two
    coroutines [create_connection] and [start_serving].

    Python objects become records that are passed explicitly; a method
    that can raise returns an [outcome] next to the new state.  The
    reactor, the socket and the protocol consumer are part of the state:
    the reactor as maps from file descriptors to callbacks, the socket as
    the list of answers the kernel will give to the next calls together
    with the bytes it has accepted, the protocol as the log of callbacks
    it has received. *)

From Stdlib Require Import ZArith Lia.
From Stdlib Require Import Strings.Byte.
From stdpp Require Import base list gmap strings pretty.

Set Warnings "-clear-no-such-hyp".

Local Open Scope Z_scope.
Local Open Scope nat_scope.

(** ** Exceptions *)

(** [bytes] objects. *)
Abbreviation bytes := (list byte).

(** The exception values that travel through the module.  [socket_error]
    is [socket.error(errno, strerror)], [socket_error_msg] is
    [socket.error(msg)]; [SSLError] is [ssl.SSLError], a subclass of
    [socket.error]. *)
Inductive exn :=
| socket_error (errno : Z) (strerror : string)
| socket_error_msg (msg : string)
| SSLError (errno : Z) (strerror : string)
| IOError (msg : string)
| ValueError (msg : string)
| IndexError (msg : string)
| TypeError (msg : string)
| AttributeError (msg : string)
| TooManyConsecutiveWrite
| RuntimeError (msg : string).

(** [e.args[0]] and [e.errno] when they are integers. *)
Definition errno_of (e : exn) : option Z :=
  match e with
  | socket_error n _ | SSLError n _ => Some n
  | _ => None
  end.

(** What a call gives back: a value or a raised exception. *)
Inductive outcome (A : Type) :=
| Return (a : A)
| Raise (e : exn).
Arguments Return {A} a.
Arguments Raise {A} e.

(** ** Constants of the module *)

Definition SSLV3_ALERT_CERTIFICATE_UNKNOWN : Z := 1.
Definition SSL3_WRITE_PENDING : Z := 1.
Definition MAX_CONSECUTIVE_WRITES : nat := 500.

(** [ssl.SSL_ERROR_WANT_READ] and [ssl.SSL_ERROR_WANT_WRITE] of the
    standard [ssl] module. *)
Definition SSL_ERROR_WANT_READ : Z := 2.
Definition SSL_ERROR_WANT_WRITE : Z := 3.

(** [errno.EBADF]: what a system call on a closed descriptor reports. *)
Definition EBADF : Z := 9.

(** ** The reactor *)

(** The bound methods and protocol callbacks handed to the reactor. *)
Inductive callback :=
| cb_ready_read
| cb_ready_write
| cb_do_handshake
| cb_connection_made
| cb_shutdown
| cb_sock_accept_connection.

Record EventLoop := mkLoop {
  readers : gmap Z callback;
  writers : gmap Z callback;
  soon : list callback
}.

Definition add_reader (fd : Z) (cb : callback) (l : EventLoop) : EventLoop :=
  mkLoop (<[fd := cb]> (readers l)) (writers l) (soon l).

Definition remove_reader (fd : Z) (l : EventLoop) : EventLoop :=
  mkLoop (delete fd (readers l)) (writers l) (soon l).

Definition add_writer (fd : Z) (cb : callback) (l : EventLoop) : EventLoop :=
  mkLoop (readers l) (<[fd := cb]> (writers l)) (soon l).

Definition remove_writer (fd : Z) (l : EventLoop) : EventLoop :=
  mkLoop (readers l) (delete fd (writers l)) (soon l).

Definition call_soon (cb : callback) (l : EventLoop) : EventLoop :=
  mkLoop (readers l) (writers l) (soon l ++ [cb]).

(** ** The socket *)

(** The kernel's answer to one [send], one [recv], one [do_handshake]. *)
Inductive send_answer :=
| SendAccepts (n : nat)
| SendRaises (e : exn).

Inductive recv_answer :=
| RecvReturns (chunk : bytes)
| RecvRaises (e : exn).

Inductive handshake_answer :=
| HandshakeDone
| HandshakeRaises (e : exn).

(** A non-blocking socket seen from the transport: whether it has been
    torn down, the bytes the kernel has accepted so far, in order, the
    number of [send] calls made on it, and the answers it will give to
    the next [send] and [recv] calls.  When the answers run out the call
    would block. *)
Record Socket := mkSocket {
  sock_closed : bool;
  sock_sent : bytes;
  sock_send_calls : nat;
  sock_sends : list send_answer;
  sock_recvs : list recv_answer
}.

(** One [sock.send(data)] answered by [a]: the kernel takes at most
    [len(data)] bytes and reports how many it took; a torn-down socket
    takes nothing. *)
Definition sock_send (a : send_answer) (rest : list send_answer)
    (s : Socket) (data : bytes) : Socket * outcome nat :=
  if sock_closed s then
    (mkSocket true (sock_sent s) (S (sock_send_calls s)) rest (sock_recvs s),
     Raise (socket_error EBADF "Bad file descriptor"))
  else
    match a with
    | SendAccepts n =>
        let sent := Nat.min n (length data) in
        (mkSocket false (sock_sent s ++ take sent data)
                  (S (sock_send_calls s)) rest (sock_recvs s),
         Return sent)
    | SendRaises e =>
        (mkSocket false (sock_sent s) (S (sock_send_calls s)) rest
                  (sock_recvs s),
         Raise e)
    end.

(** One [sock.recv(n)] answered by [a]. *)
Definition sock_recv (a : recv_answer) (rest : list recv_answer)
    (s : Socket) : Socket * outcome bytes :=
  let s' :=
    mkSocket (sock_closed s) (sock_sent s) (sock_send_calls s)
             (sock_sends s) rest in
  if sock_closed s then (s', Raise (socket_error EBADF "Bad file descriptor"))
  else
    match a with
    | RecvReturns chunk => (s', Return chunk)
    | RecvRaises e => (s', Raise e)
    end.

Definition sock_close (s : Socket) : Socket :=
  mkSocket true (sock_sent s) (sock_send_calls s) (sock_sends s)
           (sock_recvs s).

(** ** Addresses and the sockets of the operating system *)

(** A socket address: the tuple of an IPv4 or of an IPv6 endpoint. *)
Inductive sockaddr :=
| addr_inet (host : string) (port : Z)
| addr_inet6 (host : string) (port flowinfo scope_id : Z).

(** One entry of a [getaddrinfo] result:
    [(family, type, proto, canonname, sockaddr)]. *)
Record addrinfo := mkAddrinfo {
  ai_family : Z;
  ai_socktype : Z;
  ai_proto : Z;
  ai_canonname : string;
  ai_addr : sockaddr
}.

Inductive sockopt :=
| SO_REUSEADDR
| IPV6_V6ONLY.

(** The calls made on sockets, in the order they are made. *)
Inductive syscall :=
| sys_socket (fd : Z) (family type proto : Z)
| sys_socket_failed (family type proto : Z)
| sys_setblocking (fd : Z) (flag : bool)
| sys_setsockopt (fd : Z) (opt : sockopt)
| sys_bind (fd : Z) (addr : sockaddr)
| sys_connect (fd : Z) (addr : sockaddr)
| sys_listen (fd : Z) (backlog : Z)
| sys_close (fd : Z).

Record World := mkWorld {
  next_fd : Z;
  calls : list syscall
}.

Definition log (c : syscall) (w : World) : World :=
  mkWorld (next_fd w) (calls w ++ [c]).

(** The calls made between [w] and a later [w']. *)
Definition calls_since (w w' : World) : list syscall :=
  drop (length (calls w)) (calls w').

(** What the resolver and the operating system answer: [getaddrinfo];
    the exception, if any, of [socket_factory], of [sock_connect] and of
    [listen]; errno and strerror of the [socket.error], if any, of
    [bind]. *)
Record Network := mkNetwork {
  getaddrinfo : option string -> option Z -> outcome (list addrinfo);
  socket_answer : Z -> Z -> Z -> option exn;
  bind_answer : Z -> sockaddr -> option (Z * string);
  connect_answer : Z -> sockaddr -> option exn;
  listen_answer : Z -> option exn
}.

(** [socket_factory(family, type, proto)] *)
Definition socket_factory (net : Network) (family type proto : Z)
    (w : World) : World * outcome Z :=
  match socket_answer net family type proto with
  | Some e => (log (sys_socket_failed family type proto) w, Raise e)
  | None =>
      let fd := next_fd w in
      (mkWorld (fd + 1)%Z (calls w ++ [sys_socket fd family type proto]),
       Return fd)
  end.

(** [isinstance(e, socket.error)] *)
Definition is_socket_error (e : exn) : bool :=
  match e with
  | socket_error _ _ | socket_error_msg _ | SSLError _ _ => true
  | _ => false
  end.

(** [str(e)] *)
Definition str (e : exn) : string :=
  match e with
  | socket_error n m | SSLError n m => "[Errno " +:+ pretty n +:+ "] " +:+ m
  | socket_error_msg m | IOError m | ValueError m | IndexError m
  | TypeError m | AttributeError m | RuntimeError m => m
  | TooManyConsecutiveWrite => ""
  end.

(** [repr] of an address tuple. *)
Definition repr (a : sockaddr) : string :=
  match a with
  | addr_inet h p => "('" +:+ h +:+ "', " +:+ pretty p +:+ ")"
  | addr_inet6 h p f sc =>
      "('" +:+ h +:+ "', " +:+ pretty p +:+ ", " +:+ pretty f +:+ ", "
      +:+ pretty sc +:+ ")"
  end.

(** [str.lower] on ASCII text. *)
Definition lower_ascii (a : Ascii.ascii) : Ascii.ascii :=
  let n := Ascii.nat_of_ascii a in
  if (65 <=? n) && (n <=? 90) then Ascii.ascii_of_nat (n + 32) else a.

Fixpoint lower (s : string) : string :=
  match s with
  | EmptyString => EmptyString
  | String a s' => String (lower_ascii a) (lower s')
  end.

(** [', '.join(l)] *)
Fixpoint join (sep : string) (l : list string) : string :=
  match l with
  | [] => ""
  | [x] => x
  | x :: l' => x +:+ sep +:+ join sep l'
  end.

(** ** The protocol consumer *)

Inductive protocol_call :=
| connection_made
| data_received (chunk : bytes)
| eof_received
| connection_lost (exc : option exn).

(** ** Transports *)

(** [SocketStreamTransport] and its subclass [SocketStreamSslTransport]. *)
Inductive transport_class :=
| SocketStreamTransport
| SocketStreamSslTransport.

Record Transport := mkTransport {
  class_of : transport_class;
  _loop : EventLoop;
  _sock : Socket;
  _sock_fd : Z;
  _protocol : list protocol_call;
  _paused_reading : bool;
  _paused_writing : bool;
  _read_buffer : option (list bytes);
  _write_buffer : list bytes;
  _consecutive_writes : nat;
  _closing : bool;
  _handshake_reading : bool;
  _handshake_writing : bool
}.

Definition set_loop (f : EventLoop -> EventLoop) (t : Transport) : Transport :=
  mkTransport (class_of t) (f (_loop t)) (_sock t) (_sock_fd t) (_protocol t)
    (_paused_reading t) (_paused_writing t) (_read_buffer t)
    (_write_buffer t) (_consecutive_writes t) (_closing t)
    (_handshake_reading t) (_handshake_writing t).

Definition set_sock (s : Socket) (t : Transport) : Transport :=
  mkTransport (class_of t) (_loop t) s (_sock_fd t) (_protocol t)
    (_paused_reading t) (_paused_writing t) (_read_buffer t)
    (_write_buffer t) (_consecutive_writes t) (_closing t)
    (_handshake_reading t) (_handshake_writing t).

Definition call_protocol (c : protocol_call) (t : Transport) : Transport :=
  mkTransport (class_of t) (_loop t) (_sock t) (_sock_fd t)
    (_protocol t ++ [c])
    (_paused_reading t) (_paused_writing t) (_read_buffer t)
    (_write_buffer t) (_consecutive_writes t) (_closing t)
    (_handshake_reading t) (_handshake_writing t).

Definition set_paused_reading (b : bool) (t : Transport) : Transport :=
  mkTransport (class_of t) (_loop t) (_sock t) (_sock_fd t) (_protocol t)
    b (_paused_writing t) (_read_buffer t)
    (_write_buffer t) (_consecutive_writes t) (_closing t)
    (_handshake_reading t) (_handshake_writing t).

Definition set_paused_writing (b : bool) (t : Transport) : Transport :=
  mkTransport (class_of t) (_loop t) (_sock t) (_sock_fd t) (_protocol t)
    (_paused_reading t) b (_read_buffer t)
    (_write_buffer t) (_consecutive_writes t) (_closing t)
    (_handshake_reading t) (_handshake_writing t).

Definition set_read_buffer (b : option (list bytes)) (t : Transport)
    : Transport :=
  mkTransport (class_of t) (_loop t) (_sock t) (_sock_fd t) (_protocol t)
    (_paused_reading t) (_paused_writing t) b
    (_write_buffer t) (_consecutive_writes t) (_closing t)
    (_handshake_reading t) (_handshake_writing t).

Definition set_write_buffer (b : list bytes) (t : Transport) : Transport :=
  mkTransport (class_of t) (_loop t) (_sock t) (_sock_fd t) (_protocol t)
    (_paused_reading t) (_paused_writing t) (_read_buffer t)
    b (_consecutive_writes t) (_closing t)
    (_handshake_reading t) (_handshake_writing t).

Definition set_consecutive_writes (n : nat) (t : Transport) : Transport :=
  mkTransport (class_of t) (_loop t) (_sock t) (_sock_fd t) (_protocol t)
    (_paused_reading t) (_paused_writing t) (_read_buffer t)
    (_write_buffer t) n (_closing t)
    (_handshake_reading t) (_handshake_writing t).

Definition set_closing (b : bool) (t : Transport) : Transport :=
  mkTransport (class_of t) (_loop t) (_sock t) (_sock_fd t) (_protocol t)
    (_paused_reading t) (_paused_writing t) (_read_buffer t)
    (_write_buffer t) (_consecutive_writes t) b
    (_handshake_reading t) (_handshake_writing t).

Definition set_handshake (r w : bool) (t : Transport) : Transport :=
  mkTransport (class_of t) (_loop t) (_sock t) (_sock_fd t) (_protocol t)
    (_paused_reading t) (_paused_writing t) (_read_buffer t)
    (_write_buffer t) (_consecutive_writes t) (_closing t) r w.

Arguments set_loop f t /.
Arguments set_sock s t /.
Arguments call_protocol c t /.
Arguments set_paused_reading b t /.
Arguments set_paused_writing b t /.
Arguments set_read_buffer b t /.
Arguments set_write_buffer b t /.
Arguments set_consecutive_writes n t /.
Arguments set_closing b t /.
Arguments set_handshake r w t /.

(** ** Parts of the package that the module imports *)

(** Modelled from the spec: [merge_prefix] of [pulsar.utils.structures],
    which is not part of the sources.  Together with the [popleft] that
    follows it in [_ready_write] it trims the front of the queue by the
    sent byte count: it replaces the first entries of the deque by a
    single chunk of up to [size] bytes, splitting the entry that
    straddles the boundary. *)
Fixpoint merge_prefix_take (deque : list bytes) (remaining : nat)
    : list bytes * list bytes :=
  match deque with
  | [] => ([], [])
  | chunk :: rest =>
      if remaining =? 0 then ([], deque)
      else if remaining <? length chunk then
        ([take remaining chunk], drop remaining chunk :: rest)
      else
        let '(prefix, deque') :=
          merge_prefix_take rest (remaining - length chunk) in
        (chunk :: prefix, deque')
  end.

Definition merge_prefix (deque : list bytes) (size : nat) : list bytes :=
  if match deque with
     | [chunk] => length chunk <=? size
     | _ => false
     end
  then deque
  else
    let '(prefix, deque') := merge_prefix_take deque size in
    let deque'' :=
      match prefix with
      | [] => deque'
      | _ => concat prefix :: deque'
      end in
    match deque'' with
    | [] => [[]]
    | _ => deque''
    end.

(** Modelled from the spec: [SocketTransport._check_closed] of
    [pulsar.async.internet], which is not part of the sources: the
    closed-transport check that [write] makes before it enqueues. *)
Definition _check_closed (t : Transport) : outcome unit :=
  if _closing t then Raise (IOError "Transport is closing")
  else Return tt.

(** Modelled from the spec: [SocketTransport.close] of
    [pulsar.async.internet], which is not part of the sources: sets
    [closing] once a graceful close is requested; the socket close itself
    is deferred until the write queue drains, so the shutdown is scheduled
    here only when nothing is queued. *)
Definition close (t : Transport) : Transport :=
  if _closing t then t
  else
    let t := set_closing true t in
    match _write_buffer t with
    | [] => set_loop (call_soon cb_shutdown) t
    | _ => t
    end.

(** Modelled from the spec: [SocketTransport.abort] of
    [pulsar.async.internet], which is not part of the sources: tears down
    the socket, removes all reactor registrations, and invokes
    [connection_lost(failure)] exactly once.  The transport is closed
    from then on and what was queued for the socket is lost with it. *)
Definition abort (failure : exn) (t : Transport) : Transport :=
  let t := set_closing true t in
  let t := set_write_buffer [] t in
  let t := set_loop (remove_reader (_sock_fd t)) t in
  let t := set_loop (remove_writer (_sock_fd t)) t in
  let t := set_sock (sock_close (_sock t)) t in
  call_protocol (connection_lost (Some failure)) t.

Section Stream.

(** [WRITE_BUFFER_MAX_SIZE], [EWOULDBLOCK] and [TRY_WRITE_AGAIN] are
    constants of [pulsar.utils.internet], which is not part of the
    sources. *)
Variable WRITE_BUFFER_MAX_SIZE : nat.
Variable EWOULDBLOCK : Z.
Variable TRY_WRITE_AGAIN : list Z.

(** ** Error classification *)

(** [isinstance(e, self.SocketError)]: [socket.error] for the plain
    transport, [ssl.SSLError] for the TLS one. *)
Definition is_SocketError (c : transport_class) (e : exn) : bool :=
  match c, e with
  | SocketStreamTransport,
    (socket_error _ _ | socket_error_msg _ | SSLError _ _) => true
  | SocketStreamSslTransport, SSLError _ _ => true
  | _, _ => false
  end.

Definition Z_in (x : option Z) (l : list Z) : bool :=
  match x with
  | Some n => existsb (Z.eqb n) l
  | None => false
  end.

Definition _write_continue (c : transport_class) (e : exn) : bool :=
  match c with
  | SocketStreamTransport => Z_in (errno_of e) TRY_WRITE_AGAIN
  | SocketStreamSslTransport =>
      Z_in (errno_of e) [SSL_ERROR_WANT_WRITE; SSL3_WRITE_PENDING]
  end.

Definition _read_continue (c : transport_class) (e : exn) : bool :=
  match c with
  | SocketStreamTransport => Z_in (errno_of e) [EWOULDBLOCK]
  | SocketStreamSslTransport =>
      Z_in (errno_of e) [SSLV3_ALERT_CERTIFICATE_UNKNOWN; SSL_ERROR_WANT_READ]
  end.

(** What a socket raises when a call would block. *)
Definition send_would_block (c : transport_class) : exn :=
  match c with
  | SocketStreamTransport =>
      socket_error EWOULDBLOCK "Resource temporarily unavailable"
  | SocketStreamSslTransport =>
      SSLError SSL_ERROR_WANT_WRITE "The operation did not complete (write)"
  end.

Definition recv_would_block (c : transport_class) : exn :=
  match c with
  | SocketStreamTransport =>
      socket_error EWOULDBLOCK "Resource temporarily unavailable"
  | SocketStreamSslTransport =>
      SSLError SSL_ERROR_WANT_READ "The operation did not complete (read)"
  end.

(** ** Writing *)

(** [range(0, stop, step)] for a positive [step]. *)
Definition range_step (stop step : nat) : list nat :=
  (λ k, k * step) <$> seq 0 ((stop + step - 1) / step).

(** The chunks [write] appends for [data]. *)
Definition write_chunks (data : bytes) : list bytes :=
  if WRITE_BUFFER_MAX_SIZE <? length data then
    (λ i, take WRITE_BUFFER_MAX_SIZE (drop i data))
      <$> range_step (length data) WRITE_BUFFER_MAX_SIZE
  else [data].

(** How the [while buffer:] loop of [_ready_write] is left: through its
    end or a [break], or by an exception that reaches
    [except Exception]. *)
Inductive loop_exit :=
| LoopDone
| LoopFailed (failure : exn).

(** The [except self.SocketError] clause around the [send]; an exception
    of another class goes straight to [except Exception]. *)
Definition on_send_error (c : transport_class) (e : exn) : loop_exit :=
  if is_SocketError c e then
    if _write_continue c e then LoopDone else LoopFailed e
  else LoopFailed e.

(** A [send] on a socket with no answer left. *)
Definition sock_send_blocked (c : transport_class) (s : Socket)
    : Socket * exn :=
  (mkSocket (sock_closed s) (sock_sent s) (S (sock_send_calls s)) []
            (sock_recvs s),
   if sock_closed s then socket_error EBADF "Bad file descriptor"
   else send_would_block c).

(** The [while buffer:] loop, by recursion on the answers the socket
    still has. *)
Fixpoint send_loop (c : transport_class) (answers : list send_answer)
    (s : Socket) (buffer : list bytes) (tot_bytes : nat)
    : Socket * list bytes * nat * loop_exit :=
  match buffer with
  | [] => (s, buffer, tot_bytes, LoopDone)
  | chunk :: _ =>
      match answers with
      | [] =>
          let '(s', e) := sock_send_blocked c s in
          (s', buffer, tot_bytes, on_send_error c e)
      | a :: answers' =>
          match sock_send a answers' s chunk with
          | (s', Return sent) =>
              if sent =? 0 then (s', buffer, tot_bytes, LoopDone)
              else
                match merge_prefix buffer sent with
                | [] =>
                    (s', [], tot_bytes,
                     LoopFailed (IndexError "pop from an empty deque"))
                | _ :: buffer' =>
                    send_loop c answers' s' buffer' (tot_bytes + sent)
                end
          | (s', Raise e) => (s', buffer, tot_bytes, on_send_error c e)
          end
      end
  end.

(** [_ready_write]: the returned value is [tot_bytes], or [None] when
    the method ends after the [except Exception] clause. *)
Definition _ready_write (t : Transport) : Transport * option nat :=
  if _paused_writing t then (t, Some 0)
  else
    let '(s, buffer, tot_bytes, exit) :=
      send_loop (class_of t) (sock_sends (_sock t)) (_sock t)
                (_write_buffer t) 0 in
    let t := set_write_buffer buffer (set_sock s t) in
    match exit with
    | LoopDone =>
        let t :=
          match _write_buffer t with
          | [] =>
              let t := set_loop (remove_writer (_sock_fd t)) t in
              if _closing t then set_loop (call_soon cb_shutdown) t else t
          | _ => t
          end in
        (t, Some tot_bytes)
    | LoopFailed failure =>
        ((if _closing t then t else abort failure t), None)
    end.

(** [write].  [range] raises [ValueError] for a step of zero. *)
Definition write (data : bytes) (t : Transport)
    : Transport * outcome unit :=
  match data with
  | [] => (t, Return tt)
  | _ =>
    match _check_closed t with
    | Raise e => (t, Raise e)
    | Return _ =>
      let is_writing :=
        match _write_buffer t with
        | [] => false
        | _ => true
        end in
      if (WRITE_BUFFER_MAX_SIZE <? length data) && (WRITE_BUFFER_MAX_SIZE =? 0)
      then (t, Raise (ValueError "range() arg 3 must not be zero"))
      else
        let t := set_write_buffer (_write_buffer t ++ write_chunks data) t in
        if _paused_writing t then (t, Return tt)
        else if negb is_writing then
          let t := set_consecutive_writes 0 t in
          let t := fst (_ready_write t) in
          match _write_buffer t with
          | _ :: _ =>
              (set_loop (add_writer (_sock_fd t) cb_ready_write) t,
               Return tt)
          | [] =>
              if _closing t
              then (set_loop (call_soon cb_shutdown) t, Return tt)
              else (t, Return tt)
          end
        else
          let t := set_consecutive_writes (S (_consecutive_writes t)) t in
          if MAX_CONSECUTIVE_WRITES <? _consecutive_writes t then
            (abort TooManyConsecutiveWrite t, Return tt)
          else (t, Return tt)
    end
  end.

Definition pause_writing (t : Transport) : Transport :=
  if _paused_writing t then t
  else set_loop (remove_writer (_sock_fd t)) (set_paused_writing true t).

(** ** Reading *)

Definition pause_reading (t : Transport) : Transport :=
  if _paused_reading t then t else set_paused_reading true t.

(** [for chunk in buffer: self._protocol.data_received(chunk)] *)
Definition deliver (chunks : list bytes) (t : Transport) : Transport :=
  foldl (λ t chunk, call_protocol (data_received chunk) t) t chunks.

(** [_read_buffer] is set to [None], not to a fresh list; iterating over
    [None] raises [TypeError]. *)
Definition resume_reading (t : Transport) : Transport * outcome unit :=
  if _paused_reading t then
    let t := set_paused_reading false t in
    let buffer := _read_buffer t in
    let t := set_read_buffer None t in
    match buffer with
    | Some chunks => (deliver chunks t, Return tt)
    | None => (t, Raise (TypeError "'NoneType' object is not iterable"))
    end
  else (t, Return tt).

(** How the body of [_ready_read] is left: by a [return], or with a
    [failure] bound by one of the two outer [except] clauses. *)
Inductive read_exit :=
| ReadReturned
| ReadFailed (failure : option exn).

(** An exception raised by [recv]: the inner [except self.SocketError]
    returns on a would-block and re-raises otherwise, into the outer
    [except self.SocketError]; an exception of another class reaches
    [except Exception]. *)
Definition on_recv_error (t : Transport) (e : exn) : read_exit :=
  if is_SocketError (class_of t) e then
    if _read_continue (class_of t) e then ReadReturned
    else ReadFailed (if _closing t then None else Some e)
  else ReadFailed (Some e).

(** A [recv] on a socket with no answer left. *)
Definition sock_recv_blocked (c : transport_class) (s : Socket)
    : Socket * exn :=
  (mkSocket (sock_closed s) (sock_sent s) (sock_send_calls s)
            (sock_sends s) [],
   if sock_closed s then socket_error EBADF "Bad file descriptor"
   else recv_would_block c).

(** The [while chunk:] loop, by recursion on the answers the socket
    still has. *)
Fixpoint recv_loop (answers : list recv_answer) (t : Transport)
    (passes : nat) : Transport * read_exit :=
  match answers with
  | [] =>
      let '(s, e) := sock_recv_blocked (class_of t) (_sock t) in
      let t := set_sock s t in
      (t, on_recv_error t e)
  | a :: answers' =>
      match sock_recv a answers' (_sock t) with
      | (s, Raise e) =>
          let t := set_sock s t in
          (t, on_recv_error t e)
      | (s, Return chunk) =>
          let t := set_sock s t in
          match chunk with
          | _ :: _ =>
              if _paused_reading t then
                match _read_buffer t with
                | Some buffer =>
                    recv_loop answers'
                      (set_read_buffer (Some (buffer ++ [chunk])) t)
                      (S passes)
                | None =>
                    (t, ReadFailed (Some (AttributeError
                       "'NoneType' object has no attribute 'append'")))
                end
              else
                recv_loop answers' (call_protocol (data_received chunk) t)
                          (S passes)
          | [] =>
              if passes =? 0 then
                (close (call_protocol eof_received t), ReadReturned)
              else (t, ReadReturned)
          end
      end
  end.

Definition _ready_read (t : Transport) : Transport :=
  let '(t, exit) := recv_loop (sock_recvs (_sock t)) t 0 in
  match exit with
  | ReadReturned => t
  | ReadFailed None => t
  | ReadFailed (Some failure) => abort failure t
  end.

(** ** The handshake *)

(** [_do_handshake], with [answer] what [self._sock.do_handshake()]
    does.  The [raise] in the [except self.SocketError] clause leaves the
    [try] statement: the [except Exception] clause of the same statement
    does not see it. *)
Definition _do_handshake (answer : handshake_answer) (t : Transport)
    : Transport * outcome unit :=
  let fd := _sock_fd t in
  match class_of t with
  | SocketStreamTransport =>
      let t := set_loop (add_reader fd cb_ready_read) t in
      (set_loop (call_soon cb_connection_made) t, Return tt)
  | SocketStreamSslTransport =>
      match answer with
      | HandshakeRaises e =>
          if is_SocketError SocketStreamSslTransport e then
            if _read_continue SocketStreamSslTransport e then
              let t := set_loop (remove_reader fd) t in
              let t := set_handshake true (_handshake_writing t) t in
              (set_loop (add_reader fd cb_do_handshake) t, Return tt)
            else if _write_continue SocketStreamSslTransport e then
              let t := set_loop (remove_writer fd) t in
              let t := set_handshake (_handshake_reading t) true t in
              (set_loop (add_writer fd cb_do_handshake) t, Return tt)
            else (t, Raise e)
          else (abort e t, Return tt)
      | HandshakeDone =>
          let t :=
            if _handshake_reading t then
              let t := set_loop (remove_reader fd) t in
              set_loop (add_reader fd cb_ready_read) t
            else
              let t :=
                if _handshake_writing t then set_loop (remove_writer fd) t
                else t in
              let t := set_loop (add_reader fd cb_ready_read) t in
              set_loop (add_writer fd cb_ready_write) t in
          let t := set_handshake false false t in
          (set_loop (call_soon cb_connection_made) t, Return tt)
      end
  end.

(** ** Runs of a transport *)

(** What can happen to a transport: calls of its consumer and callbacks
    of the reactor. *)
Inductive op :=
| op_write (data : bytes)
| op_ready_write
| op_pause_writing
| op_ready_read
| op_pause_reading
| op_resume_reading.

Definition step (o : op) (t : Transport) : Transport :=
  match o with
  | op_write data => fst (write data t)
  | op_ready_write => fst (_ready_write t)
  | op_pause_writing => pause_writing t
  | op_ready_read => _ready_read t
  | op_pause_reading => pause_reading t
  | op_resume_reading => fst (resume_reading t)
  end.

Definition run (ops : list op) (t : Transport) : Transport :=
  foldl (λ t o, step o t) t ops.

(** The payloads handed to [write] during a run, in call order. *)
Definition written (ops : list op) : bytes :=
  concat (omap (λ o, match o with
                     | op_write data => Some data
                     | _ => None
                     end) ops).

(** The payloads of the [write] calls of a run that returned, in call
    order: a [write] that raises has enqueued nothing. *)
Fixpoint enqueued (ops : list op) (t : Transport) : bytes :=
  match ops with
  | [] => []
  | o :: ops' =>
      match o with
      | op_write data =>
          match (write data t).2 with
          | Return _ => data
          | Raise _ => []
          end
      | _ => []
      end ++ enqueued ops' (step o t)
  end.

(** The protocol calls made between [t] and a later state [t']. *)
Definition calls_between (t t' : Transport) : list protocol_call :=
  drop (length (_protocol t)) (_protocol t').

(** [abort] reports the failure to the protocol; a graceful close does
    not. *)
Definition is_abort (c : protocol_call) : bool :=
  match c with
  | connection_lost (Some _) => true
  | _ => false
  end.

(** Whether the transport is aborted during a run. *)
Definition aborts (ops : list op) (t : Transport) : bool :=
  existsb is_abort (calls_between t (run ops t)).

(** The chunks handed to [data_received] by a list of protocol calls. *)
Definition delivered (ev : list protocol_call) : list bytes :=
  omap (λ c, match c with
             | data_received chunk => Some chunk
             | _ => None
             end) ev.

(** The chunks held in the read buffer. *)
Definition held (t : Transport) : list bytes := default [] (_read_buffer t).

(** Answers of a socket that has no more data to give: ends of stream
    and failures only. *)
Definition silent (answers : list recv_answer) : bool :=
  forallb (λ a, match a with
                | RecvReturns (_ :: _) => false
                | _ => true
                end) answers.

(** ** Active connections *)

(** The error [bind] failures are recorded as. *)
Definition bind_error (errno : Z) (strerror : string) (addr : sockaddr)
    : exn :=
  socket_error errno
    ("error while attempting to bind on address " +:+ repr addr +:+ ": "
     +:+ lower strerror).

(** The loop over [laddr_infos]: [true] when a [bind] succeeded and the
    loop was left by [break]. *)
Fixpoint bind_local (net : Network) (fd : Z) (laddr_infos : list addrinfo)
    (w : World) (exceptions : list exn) : World * list exn * bool :=
  match laddr_infos with
  | [] => (w, exceptions, false)
  | info :: rest =>
      let laddr := ai_addr info in
      let w := log (sys_bind fd laddr) w in
      match bind_answer net fd laddr with
      | None => (w, exceptions, true)
      | Some (errno, strerror) =>
          bind_local net fd rest w
                     (exceptions ++ [bind_error errno strerror laddr])
      end
  end.

(** The [else] clause of the loop over the candidates: what is raised
    once every candidate has failed. *)
Definition all_failed (exceptions : list exn) : exn :=
  match exceptions with
  | [exc] => exc
  | [] => IndexError "list index out of range"
  | exc0 :: _ =>
      let model := str exc0 in
      if forallb (λ exc, String.eqb (str exc) model) exceptions then exc0
      else
        socket_error_msg
          ("Multiple exceptions: " +:+ join ", " (str <$> exceptions))
  end.

(** [sock.close()] in [except socket.error], when [sock] is bound to a
    socket. *)
Definition close_if_some (sock : option Z) (w : World) : World :=
  match sock with
  | Some fd => log (sys_close fd) w
  | None => w
  end.

(** How the loop over the candidates is left: by [break] with [sock]
    connected, through its [else] clause with the recorded [exceptions],
    or by an exception that is not a [socket.error]. *)
Inductive candidates_exit :=
| Connected (fd : Z)
| Exhausted (exceptions : list exn)
| Escaped (e : exn).

(** The loop over the candidates of [fs[0]]; [sock] is the local variable
    of that name. *)
Fixpoint connect_candidates (net : Network)
    (laddr_infos : option (list addrinfo)) (infos : list addrinfo)
    (sock : option Z) (w : World) (exceptions : list exn)
    : World * candidates_exit :=
  match infos with
  | [] => (w, Exhausted exceptions)
  | info :: rest =>
      match socket_factory net (ai_family info) (ai_socktype info)
                           (ai_proto info) w with
      | (w, Raise e) =>
          if is_socket_error e then
            connect_candidates net laddr_infos rest sock
              (close_if_some sock w) (exceptions ++ [e])
          else (w, Escaped e)
      | (w, Return fd) =>
          let w := log (sys_setblocking fd false) w in
          let '(w, exceptions, bound) :=
            match laddr_infos with
            | Some laddrs => bind_local net fd laddrs w exceptions
            | None => (w, exceptions, true)
            end in
          if bound then
            let w := log (sys_connect fd (ai_addr info)) w in
            match connect_answer net fd (ai_addr info) with
            | None => (w, Connected fd)
            | Some e =>
                if is_socket_error e then
                  connect_candidates net laddr_infos rest (Some fd)
                    (log (sys_close fd) w) (exceptions ++ [e])
                else (w, Escaped e)
            end
          else
            connect_candidates net laddr_infos rest None
              (log (sys_close fd) w) exceptions
      end
  end.

(** The tail of [create_connection]: the transport built around [sock]. *)
Definition connected (ssl : bool) (fd : Z) (w : World)
    : World * outcome (transport_class * Z) :=
  (log (sys_setblocking fd false) w,
   Return (if ssl then SocketStreamSslTransport else SocketStreamTransport,
           fd)).

(** The two resolutions [create_connection] waits for: the candidates
    and, when [local_addr] is given, the local addresses. *)
Definition resolve (net : Network) (host : option string) (port : option Z)
    (local_addr : option (string * Z))
    : outcome (list addrinfo * option (list addrinfo)) :=
  match getaddrinfo net host port with
  | Raise e => Raise e
  | Return infos =>
      match local_addr with
      | Some (lhost, lport) =>
          match getaddrinfo net (Some lhost) (Some lport) with
          | Raise e => Raise e
          | Return [] =>
              Raise (socket_error_msg "getaddrinfo() returned empty list")
          | Return laddr_infos => Return (infos, Some laddr_infos)
          end
      | None => Return (infos, None)
      end
  end.

Definition create_connection (net : Network) (host : option string)
    (port : option Z) (ssl : bool) (sock : option Z)
    (local_addr : option (string * Z)) (w : World)
    : World * outcome (transport_class * Z) :=
  if bool_decide (host ≠ None) || bool_decide (port ≠ None) then
    match sock with
    | Some _ =>
        (w, Raise (ValueError
           "host/port and sock can not be specified at the same time"))
    | None =>
        match resolve net host port local_addr with
        | Raise e => (w, Raise e)
        | Return (infos, laddr_infos) =>
            match connect_candidates net laddr_infos infos None w [] with
            | (w, Connected fd) => connected ssl fd w
            | (w, Exhausted exceptions) => (w, Raise (all_failed exceptions))
            | (w, Escaped e) => (w, Raise e)
            end
        end
    end
  else
    match sock with
    | None =>
        (w, Raise (ValueError
           "host and port was not specified and no sock specified"))
    | Some fd => connected ssl fd w
    end.

(** ** Listening *)

(** [AF_INET6] comes from [pulsar.async.internet], which is not part of
    the sources; the other two are facts about the platform:
    [hasattr(socket, 'IPPROTO_IPV6')] and
    [os.name == 'posix' and sys.platform != 'cygwin']. *)
Variable AF_INET6 : Z.
Variable has_IPPROTO_IPV6 : bool.
Variable posix_not_cygwin : bool.

(** The loop that opens and binds one socket per resolved address;
    [sockets] is the list of that name. *)
Fixpoint bind_listeners (net : Network) (reuse_address : bool)
    (infos : list addrinfo) (w : World) (sockets : list Z)
    : World * list Z * outcome unit :=
  match infos with
  | [] => (w, sockets, Return tt)
  | info :: rest =>
      match socket_factory net (ai_family info) (ai_socktype info)
                           (ai_proto info) w with
      | (w, Raise e) => (w, sockets, Raise e)
      | (w, Return fd) =>
          let sockets := sockets ++ [fd] in
          let w :=
            if reuse_address then log (sys_setsockopt fd SO_REUSEADDR) w
            else w in
          let w :=
            if (ai_family info =? AF_INET6)%Z && has_IPPROTO_IPV6
            then log (sys_setsockopt fd IPV6_V6ONLY) w
            else w in
          let sa := ai_addr info in
          let w := log (sys_bind fd sa) w in
          match bind_answer net fd sa with
          | Some (errno, strerror) =>
              (w, sockets, Raise (bind_error errno strerror sa))
          | None => bind_listeners net reuse_address rest w sockets
          end
      end
  end.

(** [for sock in sockets: sock.close()] *)
Definition close_all (sockets : list Z) (w : World) : World :=
  foldl (λ w fd, log (sys_close fd) w) w sockets.

(** The last loop of [start_serving]. *)
Fixpoint listen_all (net : Network) (backlog : Z) (sockets : list Z)
    (w : World) (l : EventLoop) : World * EventLoop * outcome unit :=
  match sockets with
  | [] => (w, l, Return tt)
  | fd :: rest =>
      let w := log (sys_listen fd backlog) w in
      match listen_answer net fd with
      | Some e => (w, l, Raise e)
      | None =>
          let w := log (sys_setblocking fd false) w in
          listen_all net backlog rest w
                     (add_reader fd cb_sock_accept_connection l)
      end
  end.

(** [start_serving]; [sock] is [None], one socket or a list of sockets;
    the result is the list of sockets of the [Server]. *)
Definition start_serving (net : Network) (host : option string)
    (port : option Z) (sock : option (Z + list Z)) (backlog : Z)
    (reuse_address : option bool) (w : World) (l : EventLoop)
    : World * EventLoop * outcome (list Z) :=
  let serve sockets w :=
    match listen_all net backlog sockets w l with
    | (w, l, Raise e) => (w, l, Raise e)
    | (w, l, Return _) => (w, l, Return sockets)
    end in
  if bool_decide (host ≠ None) || bool_decide (port ≠ None) then
    match sock with
    | Some _ =>
        (w, l, Raise (ValueError
           "host/port and sock can not be specified at the same time"))
    | None =>
        let reuse_address :=
          match reuse_address with
          | Some b => b
          | None => posix_not_cygwin
          end in
        let host := if bool_decide (host = Some "") then None else host in
        match getaddrinfo net host port with
        | Raise e => (w, l, Raise e)
        | Return [] =>
            (w, l, Raise (socket_error_msg
                            "getaddrinfo() returned empty list"))
        | Return infos =>
            match bind_listeners net reuse_address infos w [] with
            | (w, sockets, Raise e) => (close_all sockets w, l, Raise e)
            | (w, sockets, Return _) => serve sockets w
            end
        end
    end
  else
    match sock with
    | None | Some (inr []) =>
        (w, l, Raise (ValueError
           "host and port was not specified and no sock specified"))
    | Some (inl fd) => serve [fd] w
    | Some (inr sockets) => serve sockets w
    end.

(** The bytes a transport is still answerable for: what the socket has
    accepted, followed by what is queued. *)
Definition stream (t : Transport) : bytes :=
  sock_sent (_sock t) ++ concat (_write_buffer t).

(** ** The handshake over several readiness events *)

(** [_do_handshake] called once for each answer of [do_handshake], as the
    reactor does while the handshake callback is registered; a step that
    raises leaves the transport as it found it. *)
Definition handshake_steps (answers : list handshake_answer) (t : Transport)
    : Transport :=
  foldl (λ t answer, (_do_handshake answer t).1) t answers.

(** The answers of [do_handshake] that make [_do_handshake] wait for
    the socket to become readable, or writable. *)
Definition wants_read (answer : handshake_answer) : bool :=
  match answer with
  | HandshakeRaises e =>
      is_SocketError SocketStreamSslTransport e
      && _read_continue SocketStreamSslTransport e
  | HandshakeDone => false
  end.

Definition wants_write (answer : handshake_answer) : bool :=
  match answer with
  | HandshakeRaises e =>
      is_SocketError SocketStreamSslTransport e
      && negb (_read_continue SocketStreamSslTransport e)
      && _write_continue SocketStreamSslTransport e
  | HandshakeDone => false
  end.

(** The steps of a run that concern the sending side only. *)
Definition writing_op (o : op) : bool :=
  match o with
  | op_write _ | op_ready_write | op_pause_writing => true
  | _ => false
  end.

(** ** Accepting connections *)

(** [NUMBER_ACCEPTS] is a constant of [pulsar.async.consts];
    [TRY_READ_AGAIN], [EPERM] and [ACCEPT_ERRORS] are constants of
    [pulsar.utils.internet].  Neither module is part of the sources. *)
Variable NUMBER_ACCEPTS : nat.
Variable TRY_READ_AGAIN : list Z.
Variable EPERM : Z.
Variable ACCEPT_ERRORS : list Z.

(** The answer of the listening socket to one [accept]: a connection
    with the address of the peer, together with the exception, if any,
    that [protocol_factory] or the constructor of the transport raises
    for it; or an exception of [accept] itself. *)
Inductive accept_answer :=
| AcceptReturns (conn : Z) (address : sockaddr) (built : option exn)
| AcceptRaises (e : exn).

Inductive log_record :=
| log_info (i : nat) (e : exn)
| log_exception (e : exn).

(** A listening socket seen from [sock_accept_connection]: the answers
    it will give to the next [accept] calls (when they run out the call
    would block), the number of [accept] calls made, the transports
    built so far with the [addr] they carry, and what was logged. *)
Record Listening := mkListening {
  accept_pending : list accept_answer;
  accept_calls : nat;
  transports : list (transport_class * Z * sockaddr);
  logged : list log_record
}.

(** One [sock.accept()]. *)
Definition sock_accept (l : Listening) : Listening * accept_answer :=
  match accept_pending l with
  | [] =>
      (mkListening [] (S (accept_calls l)) (transports l) (logged l),
       AcceptRaises
         (socket_error EWOULDBLOCK "Resource temporarily unavailable"))
  | answer :: rest =>
      (mkListening rest (S (accept_calls l)) (transports l) (logged l),
       answer)
  end.

(** The loop [for i in range(NUMBER_ACCEPTS)] from [i] on, with [n]
    passes left; the exception, if any, is the one that reaches
    [except Exception]. *)
Fixpoint accept_loop (ssl : bool) (n i : nat) (l : Listening)
    : Listening * option exn :=
  match n with
  | 0 => (l, None)
  | S n' =>
      match sock_accept l with
      | (l, AcceptRaises e) =>
          if is_socket_error e then
            if Z_in (errno_of e) TRY_READ_AGAIN then (l, None)
            else if Z_in (errno_of e) [EPERM] then
              accept_loop ssl n' (S i) l
            else if Z_in (errno_of e) ACCEPT_ERRORS then
              (mkListening (accept_pending l) (accept_calls l)
                           (transports l)
                           (logged l ++ [log_info (i + 1) e]),
               None)
            else (l, Some e)
          else (l, Some e)
      | (l, AcceptReturns conn address built) =>
          match built with
          | Some e => (l, Some e)
          | None =>
              let transport :=
                (if ssl then SocketStreamSslTransport
                 else SocketStreamTransport, conn, address) in
              accept_loop ssl n' (S i)
                (mkListening (accept_pending l) (accept_calls l)
                             (transports l ++ [transport]) (logged l))
          end
      end
  end.

Definition sock_accept_connection (ssl : bool) (l : Listening)
    : Listening :=
  match accept_loop ssl NUMBER_ACCEPTS 0 l with
  | (l, None) => l
  | (l, Some e) =>
      mkListening (accept_pending l) (accept_calls l) (transports l)
                  (logged l ++ [log_exception e])
  end.

(** The transports built for the connections the answers hold, for
    those whose construction does not raise. *)
Definition accepted (ssl : bool) (answers : list accept_answer)
    : list (transport_class * Z * sockaddr) :=
  omap (λ answer,
          match answer with
          | AcceptReturns conn address None =>
              Some (if ssl then SocketStreamSslTransport
                    else SocketStreamTransport, conn, address)
          | _ => None
          end) answers.

(** An [accept] that returns a connection for which a transport can be
    built. *)
Definition accept_ok (answer : accept_answer) : bool :=
  match answer with
  | AcceptReturns _ _ None => true
  | _ => false
  end.

(** ** Pending connects *)

(** A connect attempt seen from [sock_connect]: the connector watches of
    the reactor, the [connect] calls made, the number of times the
    pending error of the socket was read, and the results the future was
    called back with, in order.  [Deferred] is not part of the sources:
    the future is the list of its [callback] calls, and the errback
    registered on it is not run. *)
Record Connecting := mkConnecting {
  connectors : gmap Z sockaddr;
  connect_calls : list (Z * sockaddr);
  so_error_reads : nat;
  resolved : list (option exn)
}.

(** What [sock_connect] returns: the future, [None], or the value of
    [future.callback]. *)
Inductive connect_return :=
| returns_future
| returns_None
| returns_callback.

(** [sock_connect]: [from_loop] tells that [future] is given, i.e. that
    the reactor calls back; [answer] is the exception, if any, of
    [sock.connect], [cancelled] is [future.cancelled()] and [so_error]
    the value of [SO_ERROR]. *)
Definition sock_connect (from_loop : bool) (answer : option exn)
    (cancelled : bool) (so_error : Z) (fd : Z) (address : sockaddr)
    (c : Connecting) : Connecting * connect_return :=
  if from_loop then
    let c :=
      mkConnecting (delete fd (connectors c)) (connect_calls c)
                   (so_error_reads c) (resolved c) in
    if cancelled then (c, returns_None)
    else
      let c :=
        mkConnecting (connectors c) (connect_calls c)
                     (S (so_error_reads c)) (resolved c) in
      if (so_error =? 0)%Z then
        (mkConnecting (connectors c) (connect_calls c) (so_error_reads c)
                      (resolved c ++ [None]),
         returns_None)
      else
        (mkConnecting (connectors c) (connect_calls c) (so_error_reads c)
           (resolved c ++ [Some (socket_error so_error "Connect call failed")]),
         returns_callback)
  else
    let c :=
      mkConnecting (connectors c) (connect_calls c ++ [(fd, address)])
                   (so_error_reads c) (resolved c) in
    match answer with
    | None => (c, returns_None)
    | Some e =>
        if is_socket_error e && Z_in (errno_of e) TRY_WRITE_AGAIN then
          (mkConnecting (<[fd := address]> (connectors c)) (connect_calls c)
                        (so_error_reads c) (resolved c),
           returns_future)
        else
          (mkConnecting (connectors c) (connect_calls c) (so_error_reads c)
                        (resolved c ++ [Some e]),
           returns_callback)
    end.

(** ** The calls of a connect attempt *)

(** Calls that open sockets on descriptors from [lo] to [fd] only and
    close descriptors below [fd] only. *)
Definition leaves_open (lo fd : Z) (cs : list syscall) : Prop :=
  Forall (λ c, match c with
               | sys_close fd' => (fd' < fd)%Z
               | sys_socket fd' _ _ _ => (lo ≤ fd' ≤ fd)%Z
               | _ => True
               end) cs.

(** ** The calls of a successful startup *)

(** The calls [start_serving] makes to open one listening socket on
    descriptor [fd] for [info], in order. *)
Definition open_and_bind (reuse_address : bool) (fd : Z) (info : addrinfo)
    : list syscall :=
  [sys_socket fd (ai_family info) (ai_socktype info) (ai_proto info)]
  ++ (if reuse_address then [sys_setsockopt fd SO_REUSEADDR] else [])
  ++ (if (ai_family info =? AF_INET6)%Z && has_IPPROTO_IPV6
      then [sys_setsockopt fd IPV6_V6ONLY] else [])
  ++ [sys_bind fd (ai_addr info)].

(** The same for a list of addresses, on consecutive descriptors. *)
Fixpoint opening (reuse_address : bool) (fd : Z) (infos : list addrinfo)
    : list syscall :=
  match infos with
  | [] => []
  | info :: rest =>
      open_and_bind reuse_address fd info
      ++ opening reuse_address (fd + 1) rest
  end.

(** The calls that put [sockets] into listening mode. *)
Fixpoint listening (backlog : Z) (sockets : list Z) : list syscall :=
  match sockets with
  | [] => []
  | fd :: rest =>
      sys_listen fd backlog :: sys_setblocking fd false
      :: listening backlog rest
  end.

(** The reactor after an accept callback has been registered for each of
    [sockets]. *)
Definition accepting (sockets : list Z) (l : EventLoop) : EventLoop :=
  foldl (λ l fd, add_reader fd cb_sock_accept_connection l) l sockets.

(** Queued data is not stranded: on an open transport that is not
    paused a non-empty queue has [_ready_write] registered for
    write-readiness. *)
Definition drain_scheduled (t : Transport) : Prop :=
  _paused_writing t = false → _closing t = false → _write_buffer t ≠ [] →
  writers (_loop t) !! _sock_fd t = Some cb_ready_write.

(** A transport that was aborted: closed, with nothing queued. *)
Definition torn_down (t : Transport) : Prop :=
  _closing t = true ∧ _write_buffer t = [].

(** ** Sample values *)

(** An open socket that has sent nothing, with the answers it will give. *)
Definition new_socket (sends : list send_answer) (recvs : list recv_answer)
    : Socket :=
  mkSocket false [] 0 sends recvs.

(** An open transport on descriptor 7 with empty buffers, nothing
    registered and no callback made yet. *)
Definition new_transport (c : transport_class) (sends : list send_answer)
    (recvs : list recv_answer) : Transport :=
  mkTransport c (mkLoop ∅ ∅ []) (new_socket sends recvs) 7%Z []
              false false (Some []) [] 0 false false false.

Definition would_block : exn :=
  socket_error 11 "Resource temporarily unavailable".

Definition addr_v4 : sockaddr := addr_inet "192.0.2.1" 8060.
Definition addr_v6 : sockaddr := addr_inet6 "2001:db8::1" 8060 0 0.
Definition info_v4 : addrinfo := mkAddrinfo 2 1 6 "" addr_v4.
Definition info_v6 : addrinfo := mkAddrinfo 10 1 6 "" addr_v6.

Definition sockaddr_eqb (a b : sockaddr) : bool :=
  match a, b with
  | addr_inet h p, addr_inet h' p' => String.eqb h h' && (p =? p')%Z
  | addr_inet6 h p f sc, addr_inet6 h' p' f' sc' =>
      String.eqb h h' && (p =? p')%Z && (f =? f')%Z && (sc =? sc')%Z
  | _, _ => false
  end.

(** A network that resolves every name to [info_v4] and [info_v6], where
    every connect is refused, with a different error for each family,
    and the IPv6 address cannot be bound. *)
Definition unreachable_net : Network :=
  mkNetwork
    (λ _ _, Return [info_v4; info_v6])
    (λ _ _ _, None)
    (λ _ addr,
       if sockaddr_eqb addr addr_v6
       then Some (98%Z, "Address already in use") else None)
    (λ _ addr,
       if sockaddr_eqb addr addr_v4
       then Some (socket_error 111 "Connection refused")
       else Some (socket_error 113 "No route to host"))
    (λ _, None).

(** A network whose resolver finds no address. *)
Definition nameless_net : Network :=
  mkNetwork (λ _ _, Return []) (λ _ _ _, None) (λ _ _, None) (λ _ _, None)
            (λ _, None).

Definition new_world : World := mkWorld 3 [].

(** A network that resolves every name to [info_v4] and [info_v6], where
    the connect to the first one is refused and nothing else fails. *)
Definition reachable_net : Network :=
  mkNetwork
    (λ _ _, Return [info_v4; info_v6])
    (λ _ _ _, None)
    (λ _ _, None)
    (λ _ addr,
       if sockaddr_eqb addr addr_v4
       then Some (socket_error 111 "Connection refused") else None)
    (λ _, None).

(** The same names, where [listen] fails on descriptor 4. *)
Definition deaf_net : Network :=
  mkNetwork
    (λ _ _, Return [info_v4; info_v6])
    (λ _ _ _, None)
    (λ _ _, None)
    (λ _ _, None)
    (λ fd, if (fd =? 4)%Z
           then Some (socket_error 98 "Address already in use") else None).

Definition new_loop : EventLoop := mkLoop ∅ ∅ [].

Definition want_read : handshake_answer :=
  HandshakeRaises (SSLError 2 "The operation did not complete (read)").
Definition want_write : handshake_answer :=
  HandshakeRaises (SSLError 3 "The operation did not complete (write)").

(** * Properties *)

(** ** The write queue *)

Lemma merge_prefix_take_concat (deque : list bytes) :
  ∀ n prefix deque',
    merge_prefix_take deque n = (prefix, deque') →
    concat prefix = take n (concat deque)
    ∧ concat deque' = drop n (concat deque).
Proof.
  induction deque as [|chunk rest IH]; intros n prefix deque'; simpl.
  - intros [= <- <-]. by rewrite take_nil, drop_nil.
  - destruct (n =? 0) eqn:E0.
    { intros [= <- <-]. apply Nat.eqb_eq in E0. by subst. }
    destruct (n <? length chunk) eqn:E1.
    { intros [= <- <-]. apply Nat.ltb_lt in E1. simpl.
      rewrite app_nil_r, take_app_le, drop_app_le by lia. done. }
    destruct (merge_prefix_take rest (n - length chunk)) as [p' d'] eqn:E2.
    intros [= <- <-]. apply Nat.ltb_ge in E1.
    destruct (IH _ _ _ E2) as [H1 H2]. simpl.
    rewrite H1, H2, take_app_ge, drop_app_ge by lia. done.
Qed.

Lemma merge_prefix_take_nonempty (chunk : bytes) (rest : list bytes) (n : nat) :
  0 < n → (merge_prefix_take (chunk :: rest) n).1 ≠ [].
Proof.
  intros Hn. simpl. destruct (n =? 0) eqn:E0.
  { apply Nat.eqb_eq in E0. lia. }
  destruct (n <? length chunk); [done|].
  by destruct (merge_prefix_take rest (n - length chunk)).
Qed.

(** [merge_prefix] puts the first [size] bytes of the queue into its
    first entry and leaves the rest of the bytes behind it. *)
Lemma merge_prefix_front (deque : list bytes) (size : nat) :
  0 < size → deque ≠ [] →
  ∃ rest, merge_prefix deque size = take size (concat deque) :: rest
          ∧ concat rest = drop size (concat deque).
Proof.
  intros Hsize Hne. unfold merge_prefix.
  destruct (match deque with [chunk] => length chunk <=? size | _ => false end)
    eqn:Hone.
  - destruct deque as [|chunk [|? ?]]; try done.
    apply Nat.leb_le in Hone. exists []. simpl.
    rewrite app_nil_r, take_ge, drop_ge by lia. done.
  - destruct deque as [|chunk rest]; [done|].
    pose proof (merge_prefix_take_nonempty chunk rest size Hsize) as Hp.
    destruct (merge_prefix_take (chunk :: rest) size) as [prefix deque'] eqn:E.
    destruct (merge_prefix_take_concat _ _ _ _ E) as [H1 H2].
    simpl in Hp. destruct prefix as [|p0 prefix]; [done|].
    exists deque'. by rewrite H1, H2.
Qed.

Lemma range_step_chunks (data : bytes) (size n : nat) :
  concat ((λ i, take size (drop i data)) <$> ((λ k, k * size) <$> seq 0 n))
  = take (n * size) data.
Proof.
  induction n as [|n IH]; [done|].
  rewrite seq_S, !fmap_app, concat_app, IH. simpl.
  rewrite app_nil_r, take_take_drop. f_equal. lia.
Qed.

Lemma range_step_covers (stop step : nat) :
  0 < step → stop ≤ (stop + step - 1) / step * step.
Proof.
  intros Hstep.
  pose proof (Nat.div_mod_eq (stop + step - 1) step) as Hdiv.
  pose proof (Nat.mod_upper_bound (stop + step - 1) step) as Hmod.
  nia.
Qed.

(** The pieces [write] appends are, in order, the payload. *)
Lemma write_chunks_concat (data : bytes) :
  0 < WRITE_BUFFER_MAX_SIZE → concat (write_chunks data) = data.
Proof.
  intros Hmax. unfold write_chunks, range_step.
  destruct (WRITE_BUFFER_MAX_SIZE <? length data).
  - rewrite range_step_chunks. apply take_ge. by apply range_step_covers.
  - simpl. apply app_nil_r.
Qed.


(** The drain loop moves bytes from the front of the queue to the socket:
    the [n] bytes it reports are the first [n] bytes that were queued,
    and the queue keeps the others in order. *)
Lemma send_loop_trims (c : transport_class) (answers : list send_answer) :
  ∀ s buffer tot s' buffer' tot' exit,
    send_loop c answers s buffer tot = (s', buffer', tot', exit) →
    ∃ n, tot' = tot + n
         ∧ sock_sent s' = sock_sent s ++ take n (concat buffer)
         ∧ concat buffer' = drop n (concat buffer).
Proof.
  assert (Hzero : ∀ (s : Socket) (buffer : list bytes) (tot : nat),
    ∃ n, tot = tot + n
         ∧ sock_sent s = sock_sent s ++ take n (concat buffer)
         ∧ concat buffer = drop n (concat buffer)).
  { intros. exists 0. by rewrite app_nil_r, Nat.add_0_r. }
  induction answers as [|a answers IH];
    intros s buffer tot s' buffer' tot' exit;
    destruct buffer as [|chunk rest]; simpl.
  - intros [= <- <- <- <-]. apply (Hzero s []).
  - intros [= <- <- <- <-]. apply (Hzero (mkSocket _ _ _ _ _) (chunk :: rest)).
  - intros [= <- <- <- <-]. apply (Hzero s []).
  - unfold sock_send. destruct (sock_closed s).
    { intros [= <- <- <- <-].
      apply (Hzero (mkSocket _ _ _ _ _) (chunk :: rest)). }
    destruct a as [k|e].
    2:{ intros [= <- <- <- <-].
        apply (Hzero (mkSocket _ _ _ _ _) (chunk :: rest)). }
    set (sent := k `min` length chunk).
    destruct (sent =? 0) eqn:Esent.
    { intros [= <- <- <- <-]. apply Nat.eqb_eq in Esent. exists 0.
      simpl. rewrite Esent. simpl. by rewrite !app_nil_r, Nat.add_0_r. }
    apply Nat.eqb_neq in Esent.
    destruct (merge_prefix_front (chunk :: rest) sent) as (rest' & -> & Hrest);
      [lia|done|].
    intros Hloop. apply IH in Hloop as (n & -> & Hsent & Hbuf).
    exists (sent + n). simpl in *. split; [lia|].
    rewrite Hsent, Hbuf, Hrest, drop_drop, <- app_assoc.
    rewrite <- (take_take_drop (chunk ++ concat rest) sent n).
    rewrite (take_app_le chunk (concat rest) sent) by lia. done.
Qed.

Lemma send_loop_nil (c : transport_class) (answers : list send_answer)
    (s : Socket) (tot : nat) :
  send_loop c answers s [] tot = (s, [], tot, LoopDone).
Proof. by destruct answers. Qed.

(** A send that takes a whole chunk removes exactly that chunk. *)
Lemma merge_prefix_whole_chunk (chunk : bytes) (rest : list bytes) :
  chunk ≠ [] → merge_prefix (chunk :: rest) (length chunk) = chunk :: rest.
Proof.
  intros Hne. unfold merge_prefix. destruct rest as [|chunk' rest].
  { by rewrite Nat.leb_refl. }
  cbn [merge_prefix_take].
  destruct (length chunk =? 0) eqn:E0.
  { apply Nat.eqb_eq in E0. by destruct chunk. }
  rewrite Nat.ltb_irrefl, Nat.sub_diag. simpl. by rewrite app_nil_r.
Qed.

(** A socket that takes every chunk whole drains the queue: the loop
    ends with the queue empty and everything that was queued sent. *)
Lemma send_loop_drains (c : transport_class) (buffer : list bytes) :
  ∀ answers s tot,
    sock_closed s = false →
    Forall (λ chunk, chunk ≠ []) buffer →
    sock_sends s = ((λ chunk, SendAccepts (length chunk)) <$> buffer)
                   ++ answers →
    send_loop c (sock_sends s) s buffer tot
    = (mkSocket false (sock_sent s ++ concat buffer)
                (sock_send_calls s + length buffer) answers (sock_recvs s),
       [], tot + length (concat buffer), LoopDone).
Proof.
  induction buffer as [|chunk buffer IH]; intros answers s tot Hopen Hne Hs.
  - rewrite send_loop_nil. simpl in *.
    rewrite app_nil_r, !Nat.add_0_r. destruct s; simpl in *. by subst.
  - inversion Hne as [|? ? Hchunk Hrest]; subst. rewrite Hs.
    cbn [fmap list_fmap app send_loop]. unfold sock_send. rewrite Hopen.
    rewrite Nat.min_id, take_ge by lia.
    destruct (length chunk =? 0) eqn:E0.
    { apply Nat.eqb_eq in E0. by destruct chunk. }
    rewrite merge_prefix_whole_chunk by done.
    match goal with
    | |- send_loop c ?l ?s' buffer ?n = _ =>
        pose proof (IH answers s' n eq_refl Hrest eq_refl) as Hdrain
    end.
    simpl in Hdrain. rewrite Hdrain. simpl.
    rewrite length_app, <- app_assoc, Nat.add_assoc.
    by replace (sock_send_calls s + S (length buffer))
      with (S (sock_send_calls s + length buffer)) by lia.
Qed.


Lemma _ready_write_closing (t : Transport) :
  _closing t = true → _closing (_ready_write t).1 = true.
Proof.
  intros Hc. unfold _ready_write. destruct (_paused_writing t); [done|].
  destruct (send_loop _ _ _ _ _) as [[[s buffer] tot] exit].
  destruct exit; simpl; rewrite Hc; [|done].
  by destruct buffer.
Qed.

Lemma write_closing (data : bytes) (t : Transport) :
  _closing t = true → (write data t).1 = t.
Proof.
  intros Hc. unfold write, _check_closed. rewrite Hc. by destruct data.
Qed.

Lemma pause_writing_stream (t : Transport) :
  stream (pause_writing t) = stream t
  ∧ _closing (pause_writing t) = _closing t.
Proof. unfold pause_writing. by destruct (_paused_writing t). Qed.

(** Delivering chunks only adds [data_received] calls. *)
Lemma deliver_spec (chunks : list bytes) :
  ∀ t, deliver chunks t
       = mkTransport (class_of t) (_loop t) (_sock t) (_sock_fd t)
           (_protocol t ++ (data_received <$> chunks))
           (_paused_reading t) (_paused_writing t) (_read_buffer t)
           (_write_buffer t) (_consecutive_writes t) (_closing t)
           (_handshake_reading t) (_handshake_writing t).
Proof.
  unfold deliver.
  induction chunks as [|chunk chunks IH]; intros t; simpl.
  - rewrite app_nil_r. by destruct t.
  - rewrite IH. simpl. by rewrite <- app_assoc.
Qed.

Lemma resume_reading_stream (t : Transport) :
  stream (resume_reading t).1 = stream t
  ∧ _closing (resume_reading t).1 = _closing t.
Proof.
  unfold resume_reading. destruct (_paused_reading t); [|done].
  simpl. destruct (_read_buffer t); [|done]. by rewrite deliver_spec.
Qed.

Lemma close_stream (t : Transport) :
  stream (close t) = stream t
  ∧ sock_send_calls (_sock (close t)) = sock_send_calls (_sock t)
  ∧ _write_buffer (close t) = _write_buffer t
  ∧ (_closing t = true → _closing (close t) = true).
Proof.
  unfold close. destruct (_closing t) eqn:Hc; [done|].
  destruct (_write_buffer t) eqn:Hb; unfold stream; simpl; by rewrite ?Hb.
Qed.

(** The receive loop leaves the sending side alone. *)
Lemma recv_loop_stream (answers : list recv_answer) :
  ∀ t passes t' exit,
    recv_loop answers t passes = (t', exit) →
    stream t' = stream t
    ∧ sock_send_calls (_sock t') = sock_send_calls (_sock t)
    ∧ _write_buffer t' = _write_buffer t
    ∧ (_closing t = true → _closing t' = true).
Proof.
  induction answers as [|a answers IH]; intros t passes t' exit; simpl.
  { intros [= <- <-]. done. }
  unfold sock_recv. destruct (sock_closed (_sock t)).
  { intros [= <- <-]. done. }
  destruct a as [chunk|e]; [|by intros [= <- <-]].
  destruct chunk as [|b chunk].
  { destruct (passes =? 0); intros [= <- <-]; [|done].
    match goal with
    | |- context [close ?x] =>
        destruct (close_stream x) as (H1 & H2 & H3 & H4)
    end.
    rewrite H1, H2, H3. auto. }
  simpl. destruct (_paused_reading t).
  - destruct (_read_buffer t); [|by intros [= <- <-]].
    intros Hloop. by apply IH in Hloop.
  - intros Hloop. by apply IH in Hloop.
Qed.

Lemma _ready_read_closing (t : Transport) :
  _closing t = true → _closing (_ready_read t) = true.
Proof.
  intros Hc. unfold _ready_read.
  destruct (recv_loop _ _ _) as [t' exit] eqn:Hloop.
  apply recv_loop_stream in Hloop as (_ & _ & _ & Hc').
  destruct exit as [|[failure|]]; auto.
Qed.

(** Once a transport is closing it stays so. *)
Lemma step_closing (o : op) (t : Transport) :
  _closing t = true → _closing (step o t) = true.
Proof.
  intros Hc. destruct o; simpl.
  - by rewrite write_closing.
  - by apply _ready_write_closing.
  - by rewrite (proj2 (pause_writing_stream t)).
  - by apply _ready_read_closing.
  - unfold pause_reading. by destruct (_paused_reading t).
  - by rewrite (proj2 (resume_reading_stream t)).
Qed.

Lemma run_closing (ops : list op) (t : Transport) :
  _closing t = true → _closing (run ops t) = true.
Proof.
  revert t. unfold run.
  induction ops as [|o ops IH]; intros t Hc; simpl; [done|].
  by apply IH, step_closing.
Qed.

Lemma run_snoc (ops : list op) (o : op) (t : Transport) :
  run (ops ++ [o]) t = step o (run ops t).
Proof. unfold run. by rewrite foldl_app. Qed.

Lemma written_snoc (ops : list op) (o : op) :
  written (ops ++ [o]) = written ops ++ written [o].
Proof. unfold written. by rewrite omap_app, concat_app. Qed.

(** *** Runs that close without an abort *)

Lemma calls_between_app (t t' : Transport) (ev : list protocol_call) :
  _protocol t' = _protocol t ++ ev → calls_between t t' = ev.
Proof. intros Hp. unfold calls_between. by rewrite Hp, drop_app_length. Qed.

(** The drain loop leaves the receiving side of the socket alone. *)
Lemma send_loop_recvs (c : transport_class) (answers : list send_answer) :
  ∀ s buffer tot s' buffer' tot' exit,
    send_loop c answers s buffer tot = (s', buffer', tot', exit) →
    sock_recvs s' = sock_recvs s.
Proof.
  induction answers as [|a answers IH];
    intros s buffer tot s' buffer' tot' exit;
    destruct buffer as [|chunk rest]; simpl;
    try (by intros [= <- <- <- <-]).
  unfold sock_send. destruct (sock_closed s).
  { by intros [= <- <- <- <-]. }
  destruct a as [k|e]; [|by intros [= <- <- <- <-]].
  destruct (_ =? 0); [by intros [= <- <- <- <-]|].
  destruct (merge_prefix _ _); [by intros [= <- <- <- <-]|].
  intros Hloop. by apply IH in Hloop.
Qed.

(** A write-ready callback either keeps the bytes in order and calls
    nothing on the protocol, or aborts the transport. *)
Lemma _ready_write_effect (t : Transport) :
  _read_buffer (_ready_write t).1 = _read_buffer t
  ∧ sock_recvs (_sock (_ready_write t).1) = sock_recvs (_sock t)
  ∧ ((_protocol (_ready_write t).1 = _protocol t
      ∧ stream (_ready_write t).1 = stream t)
     ∨ ∃ failure,
         _protocol (_ready_write t).1
         = _protocol t ++ [connection_lost (Some failure)]
         ∧ _closing (_ready_write t).1 = true).
Proof.
  unfold _ready_write, stream. destruct (_paused_writing t); [by auto|].
  destruct (send_loop _ _ _ _ _) as [[[s buffer] tot] exit] eqn:Hloop.
  pose proof (send_loop_recvs _ _ _ _ _ _ _ _ _ Hloop) as Hrecvs.
  apply send_loop_trims in Hloop as (k & -> & Hsent & Hbuf).
  assert (Hstream : sock_sent s ++ concat buffer
                    = sock_sent (_sock t) ++ concat (_write_buffer t)).
  { by rewrite Hsent, Hbuf, <- app_assoc, take_drop. }
  destruct exit as [|failure]; simpl.
  - destruct buffer; [destruct (_closing t)|]; simpl;
      (split; [done|]); (split; [done|]); by left.
  - destruct (_closing t); simpl; (split; [done|]); (split; [done|]).
    + by left.
    + right. by exists failure.
Qed.

Lemma write_chunks_whole (data : bytes) :
  (WRITE_BUFFER_MAX_SIZE <? length data) && (WRITE_BUFFER_MAX_SIZE =? 0)
  = false →
  concat (write_chunks data) = data.
Proof.
  intros Hz. destruct (WRITE_BUFFER_MAX_SIZE <? length data) eqn:Hlt.
  - apply write_chunks_concat. simpl in Hz. apply Nat.eqb_neq in Hz. lia.
  - unfold write_chunks. rewrite Hlt. simpl. apply app_nil_r.
Qed.

(** A [write] either adds its payload at the end of the bytes the
    transport answers for, or raises and changes nothing, or aborts the
    transport. *)
Lemma write_effect (data : bytes) (t : Transport) :
  _read_buffer (write data t).1 = _read_buffer t
  ∧ sock_recvs (_sock (write data t).1) = sock_recvs (_sock t)
  ∧ ((_protocol (write data t).1 = _protocol t
      ∧ stream (write data t).1
        = stream t ++ match (write data t).2 with
                      | Return _ => data
                      | Raise _ => []
                      end)
     ∨ ∃ failure,
         _protocol (write data t).1
         = _protocol t ++ [connection_lost (Some failure)]
         ∧ _closing (write data t).1 = true).
Proof.
  unfold write, _check_closed.
  destruct data as [|b data'].
  { simpl. rewrite app_nil_r. by auto. }
  set (data := b :: data').
  destruct (_closing t) eqn:Hc.
  { simpl. rewrite app_nil_r. by auto. }
  destruct ((WRITE_BUFFER_MAX_SIZE <? length data)
            && (WRITE_BUFFER_MAX_SIZE =? 0)) eqn:Hz.
  { simpl. rewrite app_nil_r. by auto. }
  set (t1 := set_write_buffer (_write_buffer t ++ write_chunks data) t).
  assert (Ht1 : stream t1 = stream t ++ data).
  { unfold stream, t1. simpl.
    by rewrite concat_app, write_chunks_whole, app_assoc. }
  replace (_paused_writing t1) with (_paused_writing t) by done.
  destruct (_paused_writing t); [by auto|].
  destruct (_write_buffer t) eqn:Hbuf; simpl negb; cbv iota.
  - set (t2 := set_consecutive_writes 0 t1).
    destruct (_ready_write_effect t2) as (Hread & Hrecvs & Heffect).
    assert (Hkept : ∀ f : EventLoop → EventLoop,
      _read_buffer (set_loop f (_ready_write t2).1) = _read_buffer t
      ∧ sock_recvs (_sock (set_loop f (_ready_write t2).1))
        = sock_recvs (_sock t)
      ∧ ((_protocol (set_loop f (_ready_write t2).1) = _protocol t
          ∧ stream (set_loop f (_ready_write t2).1) = stream t ++ data)
         ∨ ∃ failure,
             _protocol (set_loop f (_ready_write t2).1)
             = _protocol t ++ [connection_lost (Some failure)]
             ∧ _closing (set_loop f (_ready_write t2).1) = true)).
    { intros f. split; [exact Hread|]. split; [exact Hrecvs|].
      destruct Heffect as [[Hp Hs]|[failure Hp]].
      - left. split; [exact Hp|]. unfold stream in *. simpl.
        rewrite Hs. exact Ht1.
      - right. by exists failure. }
    destruct (_write_buffer (_ready_write t2).1);
      [destruct (_closing (_ready_write t2).1)|]; simpl;
      try apply Hkept.
    apply (Hkept id).
  - destruct (MAX_CONSECUTIVE_WRITES <? _); simpl.
    + split; [done|]. split; [done|]. right. by eexists.
    + by auto.
Qed.

Lemma close_reading (t : Transport) :
  _protocol (close t) = _protocol t
  ∧ _read_buffer (close t) = _read_buffer t
  ∧ _sock (close t) = _sock t.
Proof.
  unfold close. destruct (_closing t); [done|].
  simpl. by destruct (_write_buffer t).
Qed.

(** The receive loop calls [data_received] and [eof_received] only; on a
    socket with no more data it delivers nothing and leaves the read
    buffer alone. *)
Lemma recv_loop_effect (answers : list recv_answer) :
  ∀ t passes t' exit,
    recv_loop answers t passes = (t', exit) →
    ∃ ev, _protocol t' = _protocol t ++ ev
          ∧ existsb is_abort ev = false
          ∧ (silent answers = true →
             delivered ev = []
             ∧ _read_buffer t' = _read_buffer t
             ∧ silent (sock_recvs (_sock t')) = true).
Proof.
  induction answers as [|a answers IH]; intros t passes t' exit; simpl.
  { intros [= <- <-]. exists []. simpl. by rewrite app_nil_r. }
  unfold sock_recv. destruct (sock_closed (_sock t)).
  { intros [= <- <-]. exists []. simpl. rewrite app_nil_r.
    split; [done|]. split; [done|]. intros Hs.
    apply andb_true_iff in Hs as [_ Hs]. done. }
  destruct a as [chunk|e].
  2:{ intros [= <- <-]. exists []. simpl. rewrite app_nil_r.
      split; [done|]. split; [done|]. by intros Hs. }
  destruct chunk as [|b chunk].
  { destruct (passes =? 0); intros [= <- <-].
    - match goal with
      | |- context [close ?x] =>
          destruct (close_reading x) as (Hp & Hb & Hs)
      end.
      exists [eof_received]. rewrite Hp, Hb, Hs. simpl.
      split; [done|]. split; [done|]. by intros Hsilent.
    - exists []. simpl. rewrite app_nil_r.
      split; [done|]. split; [done|]. by intros Hs. }
  simpl. destruct (_paused_reading t).
  - destruct (_read_buffer t).
    + intros Hloop. apply IH in Hloop as (ev & Hp & Hab & _).
      exists ev. by repeat split.
    + intros [= <- <-]. exists []. simpl. rewrite app_nil_r. by repeat split.
  - intros Hloop. apply IH in Hloop as (ev & Hp & Hab & _).
    exists (data_received (b :: chunk) :: ev). simpl in *.
    rewrite Hp, <- app_assoc. by repeat split.
Qed.

Lemma _ready_read_effect (t : Transport) :
  ∃ ev, _protocol (_ready_read t) = _protocol t ++ ev
        ∧ (existsb is_abort ev = false →
           stream (_ready_read t) = stream t)
        ∧ (_closing (_ready_read t) = false → existsb is_abort ev = false)
        ∧ (silent (sock_recvs (_sock t)) = true →
           delivered ev = []
           ∧ _read_buffer (_ready_read t) = _read_buffer t
           ∧ silent (sock_recvs (_sock (_ready_read t))) = true).
Proof.
  unfold _ready_read.
  destruct (recv_loop _ _ _) as [t' exit] eqn:Hloop.
  pose proof (recv_loop_stream _ _ _ _ _ Hloop) as (Hs & _).
  apply recv_loop_effect in Hloop as (ev & Hp & Hab & Hsilent).
  destruct exit as [|[failure|]]; try (by exists ev).
  exists (ev ++ [connection_lost (Some failure)]). simpl.
  rewrite Hp, <- app_assoc. split; [done|]. split; [|split; [done|]].
  - rewrite existsb_app. simpl. by rewrite orb_true_r.
  - intros Hrecvs. destruct (Hsilent Hrecvs) as (Hd & Hb & Hr).
    unfold delivered in *. rewrite omap_app, Hd. done.
Qed.

(** What one step does to the protocol, to the bytes the transport
    answers for and to the chunks it holds back: the protocol calls are
    only added to; short of an abort the bytes stay in order, with the
    payload of a [write] that returns at their end; and no chunk reaches
    [data_received] but those the read buffer held or the socket still
    had to give. *)
Lemma step_effect (o : op) (t : Transport) :
  ∃ ev, _protocol (step o t) = _protocol t ++ ev
        ∧ (existsb is_abort ev = false →
           stream (step o t) = stream t ++ enqueued [o] t)
        ∧ (_closing (step o t) = false → existsb is_abort ev = false)
        ∧ (silent (sock_recvs (_sock t)) = true ∨ o ≠ op_ready_read →
           delivered ev ++ held (step o t) = held t)
        ∧ (silent (sock_recvs (_sock t)) = true →
           silent (sock_recvs (_sock (step o t))) = true).
Proof.
  unfold held. destruct o as [data| | | | |]; cbn [step enqueued fst].
  - destruct (write_effect data t)
      as (Hb & Hr & [[Hp Hs]|(failure & Hp & Hc)]).
    + exists []. rewrite Hb, Hr, Hs, !app_nil_r. done.
    + exists [connection_lost (Some failure)]. rewrite Hb, Hr, Hc. done.
  - destruct (_ready_write_effect t)
      as (Hb & Hr & [[Hp Hs]|(failure & Hp & Hc)]).
    + exists []. rewrite Hb, Hr, Hs, !app_nil_r. done.
    + exists [connection_lost (Some failure)]. rewrite Hb, Hr, Hc. done.
  - exists []. rewrite !app_nil_r.
    unfold pause_writing. by destruct (_paused_writing t).
  - destruct (_ready_read_effect t) as (ev & Hp & Hs & Hc & Hsilent).
    exists ev. rewrite app_nil_r. split; [done|]. split; [done|].
    split; [done|]. split.
    + intros [Hr|Hne]; [|done].
      destruct (Hsilent Hr) as (-> & -> & _). done.
    + intros Hr. by destruct (Hsilent Hr) as (_ & _ & Hr').
  - exists []. rewrite !app_nil_r.
    unfold pause_reading. by destruct (_paused_reading t).
  - unfold resume_reading. destruct (_paused_reading t).
    2:{ exists []. by rewrite !app_nil_r. }
    simpl. destruct (_read_buffer t) as [chunks|].
    2:{ exists []. by rewrite !app_nil_r. }
    exists (data_received <$> chunks). rewrite deliver_spec, !app_nil_r.
    unfold stream. simpl. split; [done|]. split; [done|]. split.
    { intros _. clear. by induction chunks. }
    split; [|done]. intros _. unfold delivered.
    clear. induction chunks as [|chunk chunks IH]; simpl; [done|].
    f_equal. exact IH.
Qed.

Lemma run_effect (ops : list op) :
  ∀ t, ∃ ev,
    _protocol (run ops t) = _protocol t ++ ev
    ∧ (existsb is_abort ev = false →
       stream (run ops t) = stream t ++ enqueued ops t)
    ∧ (_closing (run ops t) = false → existsb is_abort ev = false)
    ∧ (silent (sock_recvs (_sock t)) = true ∨ op_ready_read ∉ ops →
       delivered ev ++ held (run ops t) = held t).
Proof.
  induction ops as [|o ops IH]; intros t.
  { exists []. unfold run. simpl. by rewrite !app_nil_r. }
  destruct (step_effect o t) as (ev1 & Hp1 & Hs1 & Hc1 & Hd1 & Hr1).
  destruct (IH (step o t)) as (ev2 & Hp2 & Hs2 & Hc2 & Hd2).
  exists (ev1 ++ ev2).
  change (run (o :: ops) t) with (run ops (step o t)).
  rewrite Hp2, Hp1, <- app_assoc. split; [done|]. split; [|split].
  - rewrite existsb_app. intros Hab.
    apply orb_false_iff in Hab as [Hab1 Hab2].
    rewrite Hs2, Hs1 by done. cbn [enqueued].
    by rewrite !app_nil_r, <- !app_assoc.
  - intros Hc. rewrite existsb_app, Hc2, Hc1; [done| |done].
    destruct (_closing (step o t)) eqn:E; [|done].
    by rewrite run_closing in Hc.
  - intros Hquiet. unfold delivered in *. rewrite omap_app, <- app_assoc.
    rewrite Hd2, Hd1; [done| |].
    + destruct Hquiet as [Hr|Hnone]; [by left|]. right.
      intros ->. apply Hnone, list_elem_of_here.
    + destruct Hquiet as [Hr|Hnone]; [left; by apply Hr1|]. right.
      intros Hin. by apply Hnone, list_elem_of_further.
Qed.





(** A transport that is still open at the end of a run was not aborted
    during it. *)
Lemma open_run_has_no_abort (ops : list op) (t : Transport) :
  _closing (run ops t) = false → aborts ops t = false.
Proof.
  intros Hc. unfold aborts.
  destruct (run_effect ops t) as (ev & Hp & _ & Hopen & _).
  rewrite (calls_between_app _ _ _ Hp). by apply Hopen.
Qed.

(** The closed-transport check that an empty payload skips: a non-empty
    payload on a closing transport raises and changes nothing. *)
Lemma write_on_closing_transport (data : bytes) (t : Transport) :
  data ≠ [] → _closing t = true →
  write data t = (t, Raise (IOError "Transport is closing")).
Proof.
  intros Hdata Hc. unfold write, _check_closed. rewrite Hc.
  by destruct data.
Qed.

(** C10.  [write] with an empty payload returns at once in every state of
    the transport, closing or closed ones included: the transport, its
    queue, its socket and its reactor registrations are what they were,
    and nothing is raised, whereas on a closing transport every non-empty
    payload is refused by the closed-transport check.  Any number of such
    empty writes leaves the transport as it was. *)
Theorem write_empty_payload_is_a_noop (t : Transport) :
  write [] t = (t, Return tt)
  ∧ (_closing t = true →
     ∀ data, data ≠ [] →
       write data t = (t, Raise (IOError "Transport is closing")))
  ∧ (∀ n, run (replicate n (op_write [])) t = t).
Proof.
  split; [reflexivity|]. split.
  - intros Hc data Hdata. by apply write_on_closing_transport.
  - intros n. induction n as [|n IH]; [reflexivity|].
    unfold run in *. simpl. exact IH.
Qed.

(** ** Consecutive writes *)

Lemma _ready_write_counter (t : Transport) :
  _consecutive_writes (_ready_write t).1 = _consecutive_writes t.
Proof.
  unfold _ready_write. destruct (_paused_writing t); [done|].
  destruct (send_loop _ _ _ _ _) as [[[s buffer] tot] exit].
  destruct exit; simpl.
  - by destruct buffer; [destruct (_closing t)|].
  - by destruct (_closing t).
Qed.

Lemma abort_torn_down (failure : exn) (t : Transport) :
  torn_down (abort failure t).
Proof. done. Qed.

(** No step of a torn-down transport calls [send]. *)
Lemma step_torn_down (o : op) (t : Transport) :
  torn_down t →
  torn_down (step o t)
  ∧ sock_send_calls (_sock (step o t)) = sock_send_calls (_sock t)
  ∧ sock_sent (_sock (step o t)) = sock_sent (_sock t).
Proof.
  intros [Hc Hb]. unfold torn_down. destruct o; cbn [step].
  - by rewrite write_closing.
  - unfold _ready_write. destruct (_paused_writing t); [done|].
    rewrite Hb, send_loop_nil. simpl. rewrite Hc. simpl. by destruct t.
  - unfold pause_writing. by destruct (_paused_writing t).
  - unfold _ready_read.
    destruct (recv_loop _ _ _) as [t' exit] eqn:Hloop.
    apply recv_loop_stream in Hloop as (Hs & Hcalls & Hbuf & Hc').
    unfold stream in Hs. rewrite Hbuf, Hb in Hs. simpl in Hs.
    rewrite !app_nil_r in Hs.
    destruct exit as [|[failure|]]; simpl;
      rewrite ?Hbuf, ?Hcalls, ?Hs; auto.
  - unfold pause_reading. by destruct (_paused_reading t).
  - unfold resume_reading. destruct (_paused_reading t); [|done].
    simpl. destruct (_read_buffer t); [|done]. by rewrite deliver_spec.
Qed.

Lemma run_torn_down (ops : list op) (t : Transport) :
  torn_down t →
  sock_send_calls (_sock (run ops t)) = sock_send_calls (_sock t)
  ∧ sock_sent (_sock (run ops t)) = sock_sent (_sock t).
Proof.
  revert t. unfold run.
  induction ops as [|o ops IH]; intros t Ht; cbn [foldl]; [done|].
  destruct (step_torn_down o t Ht) as (Ht' & Hcalls & Hsent).
  rewrite <- Hcalls, <- Hsent. by apply IH.
Qed.

(** What [write] does with a non-empty payload on an open transport
    that is not paused. *)
Lemma write_unfold (data : bytes) (t : Transport) :
  0 < WRITE_BUFFER_MAX_SIZE →
  data ≠ [] → _closing t = false → _paused_writing t = false →
  write data t
  = let t1 := set_write_buffer (_write_buffer t ++ write_chunks data) t in
    match _write_buffer t with
    | [] =>
        let t3 := (_ready_write (set_consecutive_writes 0 t1)).1 in
        match _write_buffer t3 with
        | _ :: _ =>
            (set_loop (add_writer (_sock_fd t3) cb_ready_write) t3, Return tt)
        | [] =>
            if _closing t3
            then (set_loop (call_soon cb_shutdown) t3, Return tt)
            else (t3, Return tt)
        end
    | _ :: _ =>
        let t2 := set_consecutive_writes (S (_consecutive_writes t)) t1 in
        if MAX_CONSECUTIVE_WRITES <? S (_consecutive_writes t)
        then (abort TooManyConsecutiveWrite t2, Return tt)
        else (t2, Return tt)
    end.
Proof.
  intros Hmax Hdata Hc Hp. unfold write, _check_closed.
  destruct data as [|b data']; [done|]. rewrite Hc.
  replace (WRITE_BUFFER_MAX_SIZE =? 0) with false
    by (symmetry; apply Nat.eqb_neq; lia).
  rewrite andb_false_r. cbn [set_write_buffer _paused_writing].
  rewrite Hp. by destruct (_write_buffer t).
Qed.

(** While writing is paused [write] only enqueues. *)
Lemma write_paused (data : bytes) (t : Transport) :
  0 < WRITE_BUFFER_MAX_SIZE →
  data ≠ [] → _closing t = false → _paused_writing t = true →
  write data t
  = (set_write_buffer (_write_buffer t ++ write_chunks data) t, Return tt).
Proof.
  intros Hmax Hdata Hc Hp. unfold write, _check_closed.
  destruct data as [|b data']; [done|]. rewrite Hc.
  replace (WRITE_BUFFER_MAX_SIZE =? 0) with false
    by (symmetry; apply Nat.eqb_neq; lia).
  rewrite andb_false_r. cbn [set_write_buffer _paused_writing].
  by rewrite Hp.
Qed.

(** C7, amended.  On an open transport whose writing is not paused, a
    [write] with a non-empty payload that finds the queue non-empty
    enqueues the payload and adds one to [_consecutive_writes] without
    calling [send]; when the counter then exceeds
    [MAX_CONSECUTIVE_WRITES] the transport is aborted with
    [TooManyConsecutiveWrite], and from then on nothing the consumer or
    the reactor does calls [send] on that socket; otherwise the transport
    stays open with the payload queued.  Such a [write] that finds the
    queue empty leaves the counter at zero.  While writing is paused a
    [write] only enqueues: the counter keeps its value and nothing is
    sent. *)
Theorem consecutive_writes_are_counted_unless_paused
    (data : bytes) (t : Transport) :
  0 < WRITE_BUFFER_MAX_SIZE →
  data ≠ [] → _closing t = false →
  (_paused_writing t = false → _write_buffer t ≠ [] →
     sock_send_calls (_sock (write data t).1) = sock_send_calls (_sock t)
     ∧ sock_sent (_sock (write data t).1) = sock_sent (_sock t)
     ∧ _consecutive_writes (write data t).1 = S (_consecutive_writes t)
     ∧ (MAX_CONSECUTIVE_WRITES < S (_consecutive_writes t) →
          _protocol (write data t).1
            = _protocol t ++ [connection_lost (Some TooManyConsecutiveWrite)]
          ∧ sock_closed (_sock (write data t).1) = true
          ∧ ∀ ops,
              sock_send_calls (_sock (run ops (write data t).1))
                = sock_send_calls (_sock t)
              ∧ sock_sent (_sock (run ops (write data t).1))
                = sock_sent (_sock t))
     ∧ (S (_consecutive_writes t) ≤ MAX_CONSECUTIVE_WRITES →
          _closing (write data t).1 = false
          ∧ _protocol (write data t).1 = _protocol t
          ∧ _write_buffer (write data t).1
            = _write_buffer t ++ write_chunks data))
  ∧ (_paused_writing t = false → _write_buffer t = [] →
     _consecutive_writes (write data t).1 = 0)
  ∧ (_paused_writing t = true →
     write data t
     = (set_write_buffer (_write_buffer t ++ write_chunks data) t,
        Return tt)).
Proof.
  intros Hmax Hdata Hc.
  split; [|split]; [| |by apply write_paused]; intros Hp Hb;
    rewrite write_unfold by done; cbv zeta;
    destruct (_write_buffer t) as [|chunk queue]; try done.
  - destruct (Nat.ltb_spec MAX_CONSECUTIVE_WRITES (S (_consecutive_writes t)))
      as [Hover|Hunder].
    + split; [done|]. split; [done|]. split; [done|].
      split; [|intros; lia]. intros _.
      split; [done|]. split; [done|]. intros ops. cbn [fst].
      match goal with
      | |- context [run ops ?a] =>
          destruct (run_torn_down ops a) as [-> ->]
      end; [apply abort_torn_down|done].
    + split; [done|]. split; [done|]. split; [done|].
      split; [intros; lia|]. intros _. simpl. by rewrite Hc.
  - set (t3 := (_ready_write _).1).
    assert (Hcount : _consecutive_writes t3 = 0)
      by (unfold t3; by rewrite _ready_write_counter).
    by destruct (_write_buffer t3); [destruct (_closing t3)|].
Qed.

(** ** Reading *)

Lemma close_fields (t : Transport) :
  _protocol (close t) = _protocol t
  ∧ _closing (close t) = true
  ∧ _sock (close t) = _sock t
  ∧ _paused_reading (close t) = _paused_reading t
  ∧ _read_buffer (close t) = _read_buffer t.
Proof.
  unfold close. destruct (_closing t) eqn:Hc; [done|].
  simpl. by destruct (_write_buffer t).
Qed.

(** C8, amended.  When the first receive of a read-ready invocation
    returns zero bytes, the invocation calls [eof_received] once and then
    closes the transport; it makes no [data_received] call and no second
    receive.  Afterwards, whatever the consumer and the reactor do, as
    long as the socket has no more data to give or no further read-ready
    event occurs, the only chunks that reach [data_received] are those
    the read buffer held when the end of the stream was seen: together
    with what the buffer still holds they are, in order, exactly those
    chunks, so each is delivered at most once and, with an empty buffer,
    [data_received] is never called again.  Chunks that were buffered
    while reading was paused are delivered by the next
    [resume_reading]. *)
Theorem eof_on_first_receive_closes
    (t : Transport) (answers : list recv_answer) :
  sock_closed (_sock t) = false →
  sock_recvs (_sock t) = RecvReturns [] :: answers →
  _protocol (_ready_read t) = _protocol t ++ [eof_received]
  ∧ _closing (_ready_read t) = true
  ∧ sock_recvs (_sock (_ready_read t)) = answers
  ∧ (∀ chunks,
       _paused_reading t = true → _read_buffer t = Some chunks →
       _protocol (resume_reading (_ready_read t)).1
       = _protocol t ++ [eof_received] ++ (data_received <$> chunks))
  ∧ (∀ ops,
       silent answers = true ∨ op_ready_read ∉ ops →
       delivered (calls_between (_ready_read t) (run ops (_ready_read t)))
       ++ held (run ops (_ready_read t))
       = held t)
  ∧ (∀ ops,
       silent answers = true ∨ op_ready_read ∉ ops →
       held t = [] →
       delivered (calls_between (_ready_read t) (run ops (_ready_read t)))
       = []).
Proof.
  intros Hopen Hrecvs.
  assert (Hafter : ∀ t', sock_recvs (_sock t') = answers →
            _read_buffer t' = _read_buffer t →
            ∀ ops, silent answers = true ∨ op_ready_read ∉ ops →
                   delivered (calls_between t' (run ops t'))
                   ++ held (run ops t')
                   = held t).
  { intros t' Hr Hb ops Hquiet.
    destruct (run_effect ops t') as (ev & Hp & _ & _ & Hd).
    rewrite (calls_between_app _ _ _ Hp), Hd; [|by rewrite Hr].
    unfold held. by rewrite Hb. }
  unfold _ready_read. rewrite Hrecvs.
  cbn [recv_loop]. unfold sock_recv. rewrite Hopen. cbn [Nat.eqb].
  match goal with
  | |- context [close ?x] =>
      pose proof (close_fields x) as (Hproto & Hc & Hsock & Hpaused & Hbuf);
      set (t' := close x) in *
  end.
  simpl in Hproto, Hsock, Hpaused, Hbuf. clearbody t'.
  rewrite Hproto, Hc, Hsock.
  split; [done|]. split; [done|]. split; [done|]. split.
  { intros chunks Hp Hchunks. unfold resume_reading.
    rewrite Hpaused, Hp. simpl. rewrite Hbuf, Hchunks, deliver_spec. simpl.
    by rewrite Hproto, <- app_assoc. }
  assert (Hrun : ∀ ops,
            silent answers = true ∨ op_ready_read ∉ ops →
            delivered (calls_between t' (run ops t')) ++ held (run ops t')
            = held t).
  { apply Hafter; [by rewrite Hsock|done]. }
  split; [exact Hrun|]. intros ops Hquiet Hnone.
  specialize (Hrun ops Hquiet). rewrite Hnone in Hrun.
  by apply app_eq_nil in Hrun as [Hrun _].
Qed.

(** A receive that would block ends the invocation without an error. *)
Lemma recv_would_block_returns (t : Transport) :
  on_recv_error t (recv_would_block (class_of t)) = ReadReturned.
Proof.
  unfold on_recv_error. destruct (class_of t); simpl; [|done].
  by rewrite Z.eqb_refl.
Qed.

(** While reading is paused the receive loop buffers what arrives and
    calls nothing on the protocol. *)
Lemma recv_loop_paused (chunks : list bytes) :
  ∀ t passes buffer,
    Forall (λ chunk, chunk ≠ []) chunks →
    sock_closed (_sock t) = false →
    _paused_reading t = true →
    _read_buffer t = Some buffer →
    ∃ t', recv_loop (RecvReturns <$> chunks) t passes = (t', ReadReturned)
          ∧ _protocol t' = _protocol t
          ∧ _paused_reading t' = true
          ∧ _read_buffer t' = Some (buffer ++ chunks)
          ∧ _closing t' = _closing t.
Proof.
  induction chunks as [|chunk chunks IH];
    intros t passes buffer Hne Hopen Hp Hbuf; simpl.
  - unfold sock_recv_blocked. rewrite Hopen.
    eexists. split.
    + f_equal. apply (recv_would_block_returns (set_sock _ t)).
    + simpl. by rewrite app_nil_r.
  - inversion Hne as [|? ? Hchunk Hrest]; subst.
    unfold sock_recv. rewrite Hopen.
    destruct chunk as [|b chunk]; [done|]. simpl. rewrite Hp, Hbuf.
    edestruct IH as (t' & -> & ? & ? & Hb' & ?); [done..|].
    eexists. split; [done|]. simpl in *.
    by rewrite Hb', <- app_assoc.
Qed.

(** The first pause of a transport whose [_read_buffer] is a list: what
    arrives is held back and delivered, in order, by [resume_reading]. *)
Lemma first_pause_delivers_in_order (t : Transport) (chunks : list bytes) :
  Forall (λ chunk, chunk ≠ []) chunks →
  sock_closed (_sock t) = false →
  _paused_reading t = false →
  _read_buffer t = Some [] →
  sock_recvs (_sock t) = RecvReturns <$> chunks →
  _protocol (_ready_read (pause_reading t)) = _protocol t
  ∧ (resume_reading (_ready_read (pause_reading t))).2 = Return tt
  ∧ _protocol (resume_reading (_ready_read (pause_reading t))).1
    = _protocol t ++ (data_received <$> chunks).
Proof.
  intros Hne Hopen Hp Hbuf Hrecvs. unfold pause_reading. rewrite Hp.
  unfold _ready_read. cbn [set_paused_reading _sock]. rewrite Hrecvs.
  edestruct (recv_loop_paused chunks) as (t' & -> & Hproto & Hp' & Hb' & _);
    [done| | |exact Hbuf|]; [done..|].
  unfold resume_reading. rewrite Hp'. simpl. rewrite Hb'. simpl.
  rewrite deliver_spec. simpl in *. by rewrite Hproto.
Qed.

(** C2: the code at the failing input.  [resume_reading] leaves [None]
    in [_read_buffer]: after one pause and resume of any transport, the
    next pause followed at once by [resume_reading] raises. *)
Theorem second_resume_reading_raises (t : Transport) :
  _read_buffer (resume_reading (pause_reading t)).1 = None
  ∧ _paused_reading (resume_reading (pause_reading t)).1 = false
  ∧ (resume_reading
       (pause_reading (resume_reading (pause_reading t)).1)).2
    = Raise (TypeError "'NoneType' object is not iterable").
Proof.
  unfold resume_reading, pause_reading.
  destruct (_paused_reading t) eqn:Hp; simpl; rewrite ?Hp; simpl;
    destruct (_read_buffer t); simpl; rewrite ?deliver_spec; done.
Qed.

(** ** The handshake *)

(** An exception of the handshake that is not an [ssl.SSLError] aborts
    the transport. *)
Lemma handshake_other_error_aborts (t : Transport) (e : exn) :
  class_of t = SocketStreamSslTransport →
  is_SocketError SocketStreamSslTransport e = false →
  _do_handshake (HandshakeRaises e) t = (abort e t, Return tt).
Proof. intros Hclass He. unfold _do_handshake. by rewrite Hclass, He. Qed.

(** C3: the code at the failing inputs.  An [ssl.SSLError] of the
    handshake that asks for no retry is raised out of [_do_handshake]:
    the transport is left as it was, so it is not aborted and
    [connection_lost] is not called. *)
Theorem fatal_ssl_handshake_error_escapes (t : Transport) (e : exn) :
  class_of t = SocketStreamSslTransport →
  is_SocketError SocketStreamSslTransport e = true →
  _read_continue SocketStreamSslTransport e = false →
  _write_continue SocketStreamSslTransport e = false →
  _do_handshake (HandshakeRaises e) t = (t, Raise e).
Proof.
  intros Hclass He Hr Hw. unfold _do_handshake.
  by rewrite Hclass, He, Hr, Hw.
Qed.

(** C4, amended.  When the handshake of a TLS transport succeeds,
    [_ready_read] becomes the read registration, both handshake flags are
    cleared, and [connection_made] is put on the reactor's queue without
    being called; [_ready_write] becomes the write registration exactly
    when [_handshake_reading] was not set, whatever the write queue
    holds. *)
Theorem handshake_success_registers (t : Transport) :
  class_of t = SocketStreamSslTransport →
  (_do_handshake HandshakeDone t).2 = Return tt
  ∧ readers (_loop (_do_handshake HandshakeDone t).1) !! _sock_fd t
    = Some cb_ready_read
  ∧ writers (_loop (_do_handshake HandshakeDone t).1)
    = (if _handshake_reading t then writers (_loop t)
       else <[_sock_fd t := cb_ready_write]> (writers (_loop t)))
  ∧ _handshake_reading (_do_handshake HandshakeDone t).1 = false
  ∧ _handshake_writing (_do_handshake HandshakeDone t).1 = false
  ∧ soon (_loop (_do_handshake HandshakeDone t).1)
    = soon (_loop t) ++ [cb_connection_made]
  ∧ _protocol (_do_handshake HandshakeDone t).1 = _protocol t.
Proof.
  intros Hclass. unfold _do_handshake. rewrite Hclass.
  destruct (_handshake_reading t); [|destruct (_handshake_writing t)];
    simpl; rewrite ?lookup_insert_eq, ?insert_delete_eq; done.
Qed.

(** ** Active connections *)

(** [host is not None or port is not None] *)
Lemma host_or_port_given (host : option string) (port : option Z) :
  host ≠ None ∨ port ≠ None →
  bool_decide (host ≠ None) || bool_decide (port ≠ None) = true.
Proof.
  intros Hgiven. apply orb_true_iff.
  destruct Hgiven; [left|right]; by apply bool_decide_eq_true.
Qed.

Lemma forallb_str (model : string) (exceptions : list exn) :
  forallb (λ exc, String.eqb (str exc) model) exceptions = true
  ↔ Forall (λ exc, str exc = model) exceptions.
Proof.
  induction exceptions as [|exc exceptions IH]; simpl.
  - split; [constructor|done].
  - rewrite andb_true_iff, IH, String.eqb_eq, Forall_cons. done.
Qed.

Lemma all_failed_single (exc : exn) : all_failed [exc] = exc.
Proof. done. Qed.

Lemma all_failed_identical (exc : exn) (rest : list exn) :
  rest ≠ [] →
  Forall (λ e, str e = str exc) (exc :: rest) →
  all_failed (exc :: rest) = exc.
Proof.
  intros Hrest Hall. destruct rest as [|exc' rest]; [done|].
  unfold all_failed. apply forallb_str in Hall. by rewrite Hall.
Qed.

Lemma all_failed_combined (exc : exn) (rest : list exn) :
  rest ≠ [] →
  ¬ Forall (λ e, str e = str exc) (exc :: rest) →
  all_failed (exc :: rest)
  = socket_error_msg
      ("Multiple exceptions: " +:+ join ", " (str <$> exc :: rest)).
Proof.
  intros Hrest Hall. destruct rest as [|exc' rest]; [done|].
  unfold all_failed.
  destruct (forallb _ _) eqn:Hb; [|done].
  by apply forallb_str in Hb.
Qed.

(** Two or more errors with pairwise distinct texts are not all alike. *)
Lemma distinct_texts_differ (exc : exn) (rest : list exn) :
  rest ≠ [] →
  NoDup (str <$> exc :: rest) →
  ¬ Forall (λ e, str e = str exc) (exc :: rest).
Proof.
  intros Hrest Hnodup Hall. destruct rest as [|exc' rest]; [done|].
  rewrite !fmap_cons in Hnodup. apply NoDup_cons in Hnodup as [Hnotin _].
  apply Forall_cons in Hall as [_ Hall].
  apply Forall_cons in Hall as [Heq _].
  apply Hnotin. rewrite Heq. apply list_elem_of_here.
Qed.

Lemma bind_local_records (net : Network) (fd : Z)
    (laddr_infos : list addrinfo) :
  ∀ w exceptions w' exceptions' bound,
    bind_local net fd laddr_infos w exceptions = (w', exceptions', bound) →
    length exceptions ≤ length exceptions'
    ∧ (bound = false → laddr_infos ≠ [] →
       length exceptions < length exceptions').
Proof.
  induction laddr_infos as [|info rest IH];
    intros w exceptions w' exceptions' bound; simpl.
  - intros [= <- <- <-]. split; [lia|done].
  - destruct (bind_answer net fd (ai_addr info)) as [[errno strerror]|].
    + intros Hrest. apply IH in Hrest as [Hle _].
      rewrite length_app in Hle. simpl in Hle. split; intros; lia.
    + intros [= <- <- <-]. split; [lia|done].
Qed.

(** Every candidate that fails leaves at least one recorded error. *)
Lemma connect_candidates_records (net : Network)
    (laddr_infos : option (list addrinfo)) (infos : list addrinfo) :
  laddr_infos ≠ Some [] →
  ∀ sock w exceptions w' exceptions',
    connect_candidates net laddr_infos infos sock w exceptions
    = (w', Exhausted exceptions') →
    length exceptions ≤ length exceptions'
    ∧ (infos ≠ [] → length exceptions < length exceptions').
Proof.
  intros Hladdr.
  induction infos as [|info rest IH];
    intros sock w exceptions w' exceptions'; simpl.
  { intros [= <- <-]. split; [lia|done]. }
  destruct (socket_factory _ _ _ _ _) as [w1 [fd|e]].
  - destruct laddr_infos as [laddrs|].
    + destruct (bind_local _ _ _ _ _) as [[w2 exceptions2] bound] eqn:Hbind.
      apply bind_local_records in Hbind as [Hle Hlt].
      destruct bound.
      * destruct (connect_answer _ _ _) as [e|]; [|done].
        destruct (is_socket_error e); [|done].
        intros Hrest. apply IH in Hrest as [Hle' _].
        rewrite length_app in Hle'. simpl in Hle'. split; intros; lia.
      * intros Hrest. apply IH in Hrest as [Hle' _].
        assert (Hne : laddrs ≠ []) by congruence.
        specialize (Hlt eq_refl Hne). split; intros; lia.
    + destruct (connect_answer _ _ _) as [e|]; [|done].
      destruct (is_socket_error e); [|done].
      intros Hrest. apply IH in Hrest as [Hle' _].
      rewrite length_app in Hle'. simpl in Hle'. split; intros; lia.
  - destruct (is_socket_error e); [|done].
    intros Hrest. apply IH in Hrest as [Hle' _].
    rewrite length_app in Hle'. simpl in Hle'. split; intros; lia.
Qed.

(** Without local addresses every failed candidate records exactly one
    error. *)
Lemma connect_candidates_one_each (net : Network) (infos : list addrinfo) :
  ∀ sock w exceptions w' exceptions',
    connect_candidates net None infos sock w exceptions
    = (w', Exhausted exceptions') →
    length exceptions' = length exceptions + length infos.
Proof.
  induction infos as [|info rest IH];
    intros sock w exceptions w' exceptions'; simpl.
  { intros [= <- <-]. lia. }
  destruct (socket_factory _ _ _ _ _) as [w1 [fd|e]].
  - destruct (connect_answer _ _ _) as [e|]; [|done].
    destruct (is_socket_error e); [|done].
    intros Hrest. apply IH in Hrest. rewrite length_app in Hrest.
    simpl in Hrest. lia.
  - destruct (is_socket_error e); [|done].
    intros Hrest. apply IH in Hrest. rewrite length_app in Hrest.
    simpl in Hrest. lia.
Qed.

Lemma resolve_local_nonempty (net : Network) (host : option string)
    (port : option Z) (local_addr : option (string * Z))
    (infos : list addrinfo) (laddr_infos : option (list addrinfo)) :
  resolve net host port local_addr = Return (infos, laddr_infos) →
  laddr_infos ≠ Some [].
Proof.
  unfold resolve. destruct (getaddrinfo net host port); [|done].
  destruct local_addr as [[lhost lport]|]; [|by intros [= <- <-]].
  destruct (getaddrinfo net (Some lhost) (Some lport)) as [[|? ?]|];
    try done.
  by intros [= <- <-].
Qed.

(** C5.  When the loop over the candidates of a connect attempt runs out
    with every candidate failed, [create_connection] raises: the recorded
    error itself if there is exactly one; the first recorded error, a
    single instance, if there are several and all have the same text; one
    [socket.error] whose message joins the texts of all recorded errors
    if there are several and their texts are not all the same, as they
    are not when the texts are pairwise distinct.  A connect attempt with
    at least one candidate records at least one error, and exactly one
    for each candidate when no local address is given. *)
Theorem all_candidates_failed_error (net : Network)
    (host : option string) (port : option Z) (ssl : bool)
    (local_addr : option (string * Z)) (w w' : World)
    (infos : list addrinfo) (laddr_infos : option (list addrinfo))
    (exceptions : list exn) :
  host ≠ None ∨ port ≠ None →
  resolve net host port local_addr = Return (infos, laddr_infos) →
  connect_candidates net laddr_infos infos None w []
  = (w', Exhausted exceptions) →
  create_connection net host port ssl None local_addr w
  = (w', Raise (all_failed exceptions))
  ∧ (∀ exc, exceptions = [exc] → all_failed exceptions = exc)
  ∧ (∀ exc rest,
       exceptions = exc :: rest → rest ≠ [] →
       Forall (λ e, str e = str exc) exceptions →
       all_failed exceptions = exc)
  ∧ (∀ exc rest,
       exceptions = exc :: rest → rest ≠ [] →
       ¬ Forall (λ e, str e = str exc) exceptions →
       all_failed exceptions
       = socket_error_msg
           ("Multiple exceptions: " +:+ join ", " (str <$> exceptions)))
  ∧ (∀ exc rest,
       exceptions = exc :: rest → rest ≠ [] →
       NoDup (str <$> exceptions) →
       all_failed exceptions
       = socket_error_msg
           ("Multiple exceptions: " +:+ join ", " (str <$> exceptions)))
  ∧ (infos ≠ [] → exceptions ≠ [])
  ∧ (laddr_infos = None → length exceptions = length infos).
Proof.
  intros Hgiven Hresolve Hloop.
  split; [|split; [|split; [|split; [|split; [|split]]]]].
  - unfold create_connection.
    by rewrite host_or_port_given, Hresolve, Hloop.
  - by intros exc ->.
  - intros exc rest -> Hrest Hall. by apply all_failed_identical.
  - intros exc rest -> Hrest Hall. by apply all_failed_combined.
  - intros exc rest -> Hrest Hnodup.
    by apply all_failed_combined, distinct_texts_differ.
  - intros Hinfos ->.
    apply connect_candidates_records in Hloop as [_ Hlt];
      [|by eapply resolve_local_nonempty].
    specialize (Hlt Hinfos). simpl in Hlt. lia.
  - intros ->. by apply connect_candidates_one_each in Hloop.
Qed.

(** The two configuration errors that [create_connection] does raise
    before it touches a socket. *)
Lemma create_connection_exclusive (net : Network) (host : option string)
    (port : option Z) (ssl : bool) (fd : Z)
    (local_addr : option (string * Z)) (w : World) :
  host ≠ None ∨ port ≠ None →
  create_connection net host port ssl (Some fd) local_addr w
  = (w, Raise (ValueError
                 "host/port and sock can not be specified at the same time")).
Proof.
  intros Hgiven. unfold create_connection.
  by rewrite host_or_port_given.
Qed.

Lemma create_connection_empty_local (net : Network) (host : option string)
    (port : option Z) (ssl : bool) (lhost : string) (lport : Z)
    (infos : list addrinfo) (w : World) :
  host ≠ None ∨ port ≠ None →
  getaddrinfo net host port = Return infos →
  getaddrinfo net (Some lhost) (Some lport) = Return [] →
  create_connection net host port ssl None (Some (lhost, lport)) w
  = (w, Raise (socket_error_msg "getaddrinfo() returned empty list")).
Proof.
  intros Hgiven Hremote Hlocal. unfold create_connection, resolve.
  by rewrite host_or_port_given, Hremote, Hlocal.
Qed.

(** C6: the code at the failing inputs.  An empty resolution result for
    the target is not checked: the loop over the candidates does not run,
    nothing is recorded, and its [else] clause raises [IndexError] from
    [exceptions[0]].  No socket call is made. *)
Theorem empty_target_resolution_raises_IndexError (net : Network)
    (host : option string) (port : option Z) (ssl : bool) (w : World) :
  host ≠ None ∨ port ≠ None →
  getaddrinfo net host port = Return [] →
  create_connection net host port ssl None None w
  = (w, Raise (IndexError "list index out of range")).
Proof.
  intros Hgiven Hremote. unfold create_connection, resolve.
  by rewrite host_or_port_given, Hremote.
Qed.

(** ** Listening *)

Lemma calls_since_app (w w' : World) (cs : list syscall) :
  calls w' = calls w ++ cs → calls_since w w' = cs.
Proof.
  intros Hcalls. unfold calls_since. rewrite Hcalls. apply drop_app_length.
Qed.

Lemma close_all_calls (sockets : list Z) :
  ∀ w, calls (close_all sockets w) = calls w ++ (sys_close <$> sockets)
       ∧ next_fd (close_all sockets w) = next_fd w.
Proof.
  unfold close_all.
  induction sockets as [|fd sockets IH]; intros w; simpl.
  - by rewrite app_nil_r.
  - destruct (IH (log (sys_close fd) w)) as [-> ->]. simpl.
    by rewrite <- app_assoc.
Qed.

(** The listening loop binds nothing and opens nothing. *)
Lemma listen_all_calls (net : Network) (backlog : Z) (sockets : list Z) :
  ∀ w l w' l' r,
    listen_all net backlog sockets w l = (w', l', r) →
    ∃ cs, calls w' = calls w ++ cs
          ∧ (∀ fd sa, sys_bind fd sa ∉ cs)
          ∧ (∀ fd family type proto,
               sys_socket fd family type proto ∉ cs).
Proof.
  induction sockets as [|fd sockets IH]; intros w l w' l' r; simpl.
  { intros [= <- <- <-]. exists []. rewrite app_nil_r. set_solver. }
  destruct (listen_answer net fd).
  - intros [= <- <- <-]. exists [sys_listen fd backlog]. set_solver.
  - intros Hrest. apply IH in Hrest as (cs & -> & Hbind & Hsock).
    exists (sys_listen fd backlog :: sys_setblocking fd false :: cs).
    simpl. rewrite <- !app_assoc. set_solver.
Qed.

(** The loop that opens the listening sockets: every socket it opens is
    in [sockets], it never listens, and a [bind] that fails is its last
    call and decides the error. *)
Lemma bind_listeners_calls (net : Network) (reuse_address : bool)
    (infos : list addrinfo) :
  ∀ w sockets w' sockets' r,
    bind_listeners net reuse_address infos w sockets = (w', sockets', r) →
    ∃ new cs,
      sockets' = sockets ++ new
      ∧ calls w' = calls w ++ cs
      ∧ (∀ fd family type proto,
           sys_socket fd family type proto ∈ cs → fd ∈ new)
      ∧ (∀ fd backlog, sys_listen fd backlog ∉ cs)
      ∧ (∀ fd sa errno strerror,
           sys_bind fd sa ∈ cs →
           bind_answer net fd sa = Some (errno, strerror) →
           r = Raise (bind_error errno strerror sa)).
Proof.
  induction infos as [|info rest IH]; intros w sockets w' sockets' r.
  { intros [= <- <- <-]. exists [], []. rewrite !app_nil_r. set_solver. }
  cbn [bind_listeners]. unfold socket_factory.
  destruct (socket_answer net _ _ _) as [e|].
  { intros [= <- <- <-].
    exists [], [sys_socket_failed (ai_family info) (ai_socktype info)
                                  (ai_proto info)].
    rewrite app_nil_r. set_solver. }
  set (fd := next_fd w). set (sa := ai_addr info).
  destruct (bind_answer net fd sa) as [[errno strerror]|] eqn:Hbind.
  - intros [= <- <- <-]. exists [fd].
    destruct reuse_address,
      ((ai_family info =? AF_INET6)%Z && has_IPPROTO_IPV6);
      simpl; eexists; (split; [done|]);
      (split; [rewrite <- !app_assoc; reflexivity|]);
      set_unfold; naive_solver.
  - intros Hrest.
    apply IH in Hrest as (new & cs & -> & Hcalls & Hsock & Hlisten & Hfail).
    exists (fd :: new). rewrite Hcalls.
    destruct reuse_address,
      ((ai_family info =? AF_INET6)%Z && has_IPPROTO_IPV6);
      simpl; eexists; (split; [by rewrite <- app_assoc|]);
      (split; [rewrite <- !app_assoc; reflexivity|]);
      set_unfold; naive_solver.
Qed.

(** C9.  When a [bind] made during the startup of a listener fails,
    [start_serving] raises the bind error, every socket the startup has
    opened is closed again, no socket is put into listening mode and no
    accept callback is registered with the reactor. *)
Theorem bind_failure_aborts_the_whole_listener (net : Network)
    (host : option string) (port : option Z) (sock : option (Z + list Z))
    (backlog : Z) (reuse_address : option bool) (w w' : World)
    (l l' : EventLoop) (r : outcome (list Z))
    (fd : Z) (sa : sockaddr) (errno : Z) (strerror : string) :
  start_serving net host port sock backlog reuse_address w l = (w', l', r) →
  sys_bind fd sa ∈ calls_since w w' →
  bind_answer net fd sa = Some (errno, strerror) →
  r = Raise (bind_error errno strerror sa)
  ∧ l' = l
  ∧ (∀ fd' backlog', sys_listen fd' backlog' ∉ calls_since w w')
  ∧ (∀ fd' family type proto,
       sys_socket fd' family type proto ∈ calls_since w w' →
       sys_close fd' ∈ calls_since w w').
Proof.
  unfold start_serving. intros Hstart Hin Hfail.
  assert (Hserve : ∀ sockets w1 cs,
    calls w1 = calls w ++ cs →
    (∀ fd sa, sys_bind fd sa ∈ cs → bind_answer net fd sa = None) →
    match listen_all net backlog sockets w1 l with
    | (w, l, Raise e) => (w, l, Raise e)
    | (w, l, Return _) => (w, l, Return sockets)
    end = (w', l', r) →
    False).
  { intros sockets w1 cs Hw1 Hok Hlisten.
    destruct (listen_all net backlog sockets w1 l) as [[w2 l2] r2] eqn:Hl.
    apply listen_all_calls in Hl as (cs2 & Hcs2 & Hnobind & _).
    assert (w2 = w') as -> by (by destruct r2; injection Hlisten).
    rewrite (calls_since_app w w' (cs ++ cs2)) in Hin
      by (by rewrite Hcs2, Hw1, app_assoc).
    apply elem_of_app in Hin as [Hin|Hin]; [|by apply Hnobind in Hin].
    apply Hok in Hin. congruence. }
  assert (Hnone : ∀ sockets,
    match listen_all net backlog sockets w l with
    | (w, l, Raise e) => (w, l, Raise e)
    | (w, l, Return _) => (w, l, Return sockets)
    end = (w', l', r) → False).
  { intros sockets. apply (Hserve sockets w []); [by rewrite app_nil_r|].
    intros fd0 sa0 Hin0. by apply elem_of_nil in Hin0. }
  assert (Hnocalls : calls_since w w = []).
  { unfold calls_since. by rewrite drop_all. }
  destruct (bool_decide (host ≠ None) || bool_decide (port ≠ None)).
  2:{ destruct sock as [[fd0|[|fd0 sockets]]|];
        try (by apply Hnone in Hstart);
        injection Hstart as <- <- <-;
        rewrite Hnocalls in Hin; by apply elem_of_nil in Hin. }
  destruct sock.
  { injection Hstart as <- <- <-. rewrite Hnocalls in Hin.
    by apply elem_of_nil in Hin. }
  destruct (getaddrinfo net _ port) as [[|info infos]|e].
  { injection Hstart as <- <- <-. rewrite Hnocalls in Hin.
    by apply elem_of_nil in Hin. }
  2:{ injection Hstart as <- <- <-. rewrite Hnocalls in Hin.
      by apply elem_of_nil in Hin. }
  destruct (bind_listeners _ _ _ _ _) as [[w1 sockets] r1] eqn:Hbind.
  apply bind_listeners_calls in Hbind
    as (new & cs & Hsockets & Hcalls & Hsock & Hlisten & Hraise).
  simpl in Hsockets. subst sockets.
  destruct r1 as [[]|e].
  - exfalso. apply (Hserve new w1 cs); [done| |done].
    intros fd0 sa0 Hin0.
    destruct (bind_answer net fd0 sa0) as [[errno0 strerror0]|] eqn:Hb;
      [|done].
    by specialize (Hraise _ _ _ _ Hin0 Hb).
  - injection Hstart as <- <- <-.
    destruct (close_all_calls new w1) as [Hclosed _].
    rewrite Hcalls, <- app_assoc in Hclosed.
    rewrite (calls_since_app _ _ _ Hclosed) in *.
    split; [|split; [done|split]].
    + apply elem_of_app in Hin as [Hin|Hin].
      * by injection (Hraise _ _ _ _ Hin Hfail) as ->.
      * apply list_elem_of_fmap in Hin as (? & ? & ?). done.
    + intros fd' backlog' Hl. apply elem_of_app in Hl as [Hl|Hl].
      * by apply Hlisten in Hl.
      * apply list_elem_of_fmap in Hl as (? & ? & ?). done.
    + intros fd' family type proto Hs. apply elem_of_app. right.
      apply list_elem_of_fmap_2.
      apply elem_of_app in Hs as [Hs|Hs]; [by eapply Hsock|].
      apply list_elem_of_fmap in Hs as (? & ? & ?). done.
Qed.

(** * Further properties *)

(** ** Writing while paused *)

Lemma step_paused (o : op) (t : Transport) :
  0 < WRITE_BUFFER_MAX_SIZE →
  _paused_writing t = true → _closing t = false → writing_op o = true →
  _paused_writing (step o t) = true
  ∧ _closing (step o t) = false
  ∧ _sock (step o t) = _sock t
  ∧ _loop (step o t) = _loop t
  ∧ _protocol (step o t) = _protocol t
  ∧ concat (_write_buffer (step o t))
    = concat (_write_buffer t) ++ written [o].
Proof.
  intros Hmax Hp Hc Ho. unfold written.
  destruct o as [data| | | | |]; try done; cbn [step omap concat].
  - destruct data as [|b data].
    { simpl. by rewrite !app_nil_r. }
    rewrite write_paused by done. simpl.
    by rewrite concat_app, write_chunks_concat, app_nil_r.
  - unfold _ready_write. rewrite Hp. simpl. by rewrite app_nil_r.
  - unfold pause_writing. rewrite Hp. simpl. by rewrite app_nil_r.
Qed.

(** Between [pause_writing] and the end of the pause, [write] only
    accumulates: whatever writes and write-ready callbacks happen on a
    paused open transport, [send] is never called, the reactor and the
    protocol are left alone, and the queue grows by the payloads in call
    order. *)
Theorem paused_writes_only_accumulate (ops : list op) (t : Transport) :
  0 < WRITE_BUFFER_MAX_SIZE →
  _paused_writing t = true → _closing t = false →
  forallb writing_op ops = true →
  sock_send_calls (_sock (run ops t)) = sock_send_calls (_sock t)
  ∧ sock_sent (_sock (run ops t)) = sock_sent (_sock t)
  ∧ _loop (run ops t) = _loop t
  ∧ _protocol (run ops t) = _protocol t
  ∧ concat (_write_buffer (run ops t))
    = concat (_write_buffer t) ++ written ops.
Proof.
  intros Hmax Hp Hc Hops.
  enough (H : _paused_writing (run ops t) = true
              ∧ _closing (run ops t) = false
              ∧ _sock (run ops t) = _sock t
              ∧ _loop (run ops t) = _loop t
              ∧ _protocol (run ops t) = _protocol t
              ∧ concat (_write_buffer (run ops t))
                = concat (_write_buffer t) ++ written ops).
  { destruct H as (_ & _ & -> & -> & -> & ->). done. }
  induction ops as [|o ops IH] using rev_ind.
  { unfold written. simpl. by rewrite app_nil_r. }
  rewrite forallb_app in Hops. apply andb_true_iff in Hops as [Hops Ho].
  simpl in Ho. rewrite andb_true_r in Ho.
  destruct (IH Hops) as (Hp' & Hc' & Hs & Hl & Hpr & Hb).
  rewrite run_snoc, written_snoc.
  destruct (step_paused o (run ops t) Hmax Hp' Hc' Ho)
    as (-> & -> & -> & -> & -> & ->).
  by rewrite Hs, Hl, Hpr, Hb, app_assoc.
Qed.

(** ** The drain stays scheduled *)

Lemma send_loop_keeps_nonempty (c : transport_class)
    (answers : list send_answer) (s s' : Socket)
    (buffer buffer' : list bytes) (tot tot' : nat) (exit : loop_exit) :
  send_loop c answers s buffer tot = (s', buffer', tot', exit) →
  buffer' ≠ [] → buffer ≠ [].
Proof.
  intros Hloop Hne ->. rewrite send_loop_nil in Hloop.
  by injection Hloop as <- <- <- <-.
Qed.

(** The receive loop leaves the write registration alone. *)
Lemma recv_loop_writers (answers : list recv_answer) :
  ∀ t passes t' exit,
    recv_loop answers t passes = (t', exit) →
    writers (_loop t') = writers (_loop t)
    ∧ _sock_fd t' = _sock_fd t
    ∧ _paused_writing t' = _paused_writing t
    ∧ (_closing t' = false → _closing t = false).
Proof.
  induction answers as [|a answers IH]; intros t passes t' exit; simpl.
  { intros [= <- <-]. done. }
  unfold sock_recv. destruct (sock_closed (_sock t)).
  { intros [= <- <-]. done. }
  destruct a as [chunk|e]; [|by intros [= <- <-]].
  destruct chunk as [|b chunk].
  { destruct (passes =? 0); intros [= <- <-]; [|done].
    unfold close. simpl. destruct (_closing t) eqn:Hc; simpl; [done|].
    by destruct (_write_buffer t). }
  simpl. destruct (_paused_reading t).
  - destruct (_read_buffer t); [|by intros [= <- <-]].
    intros Hloop. by apply IH in Hloop.
  - intros Hloop. by apply IH in Hloop.
Qed.

Lemma step_drain_scheduled (o : op) (t : Transport) :
  0 < WRITE_BUFFER_MAX_SIZE →
  drain_scheduled t → drain_scheduled (step o t).
Proof.
  intros Hmax Hinv. destruct o as [data| | | | |]; cbn [step].
  - destruct data as [|b data']; [done|]. set (data := b :: data').
    destruct (_closing t) eqn:Hc.
    { by rewrite write_closing. }
    destruct (_paused_writing t) eqn:Hp.
    { rewrite write_paused by done. intros Hp'. simpl in Hp'. congruence. }
    rewrite write_unfold by done. cbv zeta.
    destruct (_write_buffer t) as [|chunk queue] eqn:Hb.
    + set (t3 := (_ready_write _).1).
      destruct (_write_buffer t3) eqn:Hb3.
      * destruct (_closing t3); intros _ _ Hne; simpl in Hne; congruence.
      * intros _ _ _. simpl. apply lookup_insert_eq.
    + destruct (MAX_CONSECUTIVE_WRITES <? _).
      * intros _ Hc'. done.
      * intros _ _ _. simpl. apply Hinv; [done..|]. by rewrite Hb.
  - unfold _ready_write. destruct (_paused_writing t) eqn:Hp.
    { intros Hp'. simpl in Hp'. congruence. }
    destruct (send_loop _ _ _ _ _) as [[[s buffer] tot] exit] eqn:Hloop.
    destruct exit; simpl.
    + destruct buffer as [|chunk rest] eqn:Hbuf.
      { destruct (_closing t); intros _ _ Hne; simpl in Hne; congruence. }
      intros _ Hc _. simpl in *. apply Hinv; [done..|].
      by eapply send_loop_keeps_nonempty.
    + destruct (_closing t) eqn:Hc; intros _ Hc'; simpl in Hc'; congruence.
  - unfold pause_writing. destruct (_paused_writing t) eqn:Hp; [done|].
    intros Hp'. simpl in Hp'. congruence.
  - unfold _ready_read.
    destruct (recv_loop _ _ _) as [t' exit] eqn:Hloop.
    pose proof Hloop as Hstream.
    apply recv_loop_writers in Hloop as (Hw & Hfd & Hp & Hc).
    apply recv_loop_stream in Hstream as (_ & _ & Hb & _).
    assert (Ht' : drain_scheduled t').
    { intros Hp' Hc' Hne. rewrite Hw, Hfd.
      apply Hinv; [congruence|auto|congruence]. }
    destruct exit as [|[failure|]]; [done| |done].
    intros _ Hc'. done.
  - unfold pause_reading. by destruct (_paused_reading t).
  - unfold resume_reading. destruct (_paused_reading t); [|done].
    simpl. destruct (_read_buffer t); [|done]. by rewrite deliver_spec.
Qed.

(** Queued data always has its drain registered: if that holds of a
    transport (as it does when its queue is empty), it holds after
    everything the consumer and the reactor do to it. *)
Theorem queued_data_keeps_its_drain_registered
    (ops : list op) (t : Transport) :
  0 < WRITE_BUFFER_MAX_SIZE →
  _write_buffer t = [] →
  _paused_writing (run ops t) = false →
  _closing (run ops t) = false →
  _write_buffer (run ops t) ≠ [] →
  writers (_loop (run ops t)) !! _sock_fd (run ops t) = Some cb_ready_write.
Proof.
  intros Hmax Hempty.
  enough (H : drain_scheduled (run ops t)) by exact H.
  induction ops as [|o ops IH] using rev_ind.
  - unfold run. simpl. intros _ _ Hne. by rewrite Hempty in Hne.
  - rewrite run_snoc. by apply step_drain_scheduled.
Qed.

(** ** What a write-ready callback does *)

(** The drain loop never reports more than was queued. *)
Lemma send_loop_bound (c : transport_class) (answers : list send_answer) :
  ∀ s buffer tot s' buffer' tot' exit,
    send_loop c answers s buffer tot = (s', buffer', tot', exit) →
    tot' ≤ tot + length (concat buffer).
Proof.
  induction answers as [|a answers IH];
    intros s buffer tot s' buffer' tot' exit;
    destruct buffer as [|chunk rest]; simpl;
    try (intros [= <- <- <- <-]; lia).
  unfold sock_send. destruct (sock_closed s).
  { intros [= <- <- <- <-]. lia. }
  destruct a as [k|e]; [|intros [= <- <- <- <-]; lia].
  set (sent := k `min` length chunk).
  destruct (sent =? 0) eqn:Esent; [intros [= <- <- <- <-]; lia|].
  apply Nat.eqb_neq in Esent.
  destruct (merge_prefix_front (chunk :: rest) sent) as (rest' & -> & Hrest);
    [lia|done|].
  intros Hloop. apply IH in Hloop.
  rewrite Hrest, length_drop in Hloop. simpl in Hloop.
  rewrite length_app in *. lia.
Qed.

(** The drain loop does not open or close the socket. *)
Lemma send_loop_sock_closed (c : transport_class)
    (answers : list send_answer) :
  ∀ s buffer tot s' buffer' tot' exit,
    send_loop c answers s buffer tot = (s', buffer', tot', exit) →
    sock_closed s' = sock_closed s.
Proof.
  induction answers as [|a answers IH];
    intros s buffer tot s' buffer' tot' exit;
    destruct buffer as [|chunk rest]; simpl;
    try (by intros [= <- <- <- <-]).
  unfold sock_send. destruct (sock_closed s) eqn:Hc.
  { by intros [= <- <- <- <-]. }
  destruct a as [k|e]; [|by intros [= <- <- <- <-]].
  destruct (_ =? 0); [by intros [= <- <- <- <-]|].
  destruct (merge_prefix _ _); [by intros [= <- <- <- <-]|].
  intros Hloop. by apply IH in Hloop.
Qed.



Lemma on_send_error_failed (c : transport_class) (e failure : exn) :
  on_send_error c e = LoopFailed failure →
  failure = e ∧ is_SocketError c e && _write_continue c e = false.
Proof.
  unfold on_send_error. destruct (is_SocketError c e); [|by intros [= ->]].
  destruct (_write_continue c e); [done|]. by intros [= ->].
Qed.

(** The drain loop fails on what a [send] raised and on nothing else:
    the exception of a dead socket, the exception the socket answers
    after the sends it has accepted, or the would-block of a socket
    without an answer, when that is not an error that asks to try
    again. *)
Lemma send_loop_failure (c : transport_class) (answers : list send_answer) :
  ∀ s buffer tot s' buffer' tot' failure,
    send_loop c answers s buffer tot = (s', buffer', tot', LoopFailed failure) →
    is_SocketError c failure && _write_continue c failure = false
    ∧ (if sock_closed s
       then failure = socket_error EBADF "Bad file descriptor"
       else (∃ ns rest,
               answers = (SendAccepts <$> ns) ++ SendRaises failure :: rest
               ∧ sock_sends s' = rest)
            ∨ (∃ ns, answers = SendAccepts <$> ns
                     ∧ failure = send_would_block c)).
Proof.
  induction answers as [|a answers IH];
    intros s buffer tot s' buffer' tot' failure;
    destruct buffer as [|chunk rest]; simpl; try done.
  - intros [= <- <- <- Hexit].
    apply on_send_error_failed in Hexit as [-> Hfatal].
    split; [done|]. destruct (sock_closed s); [done|]. right. by exists [].
  - unfold sock_send. destruct (sock_closed s) eqn:Hc.
    { intros [= <- <- <- Hexit].
      by apply on_send_error_failed in Hexit as [-> Hfatal]. }
    destruct a as [k|e].
    2:{ intros [= <- <- <- Hexit].
        apply on_send_error_failed in Hexit as [-> Hfatal].
        split; [done|]. left. by exists [], answers. }
    set (sent := k `min` length chunk).
    destruct (sent =? 0) eqn:Esent; [done|].
    apply Nat.eqb_neq in Esent.
    destruct (merge_prefix_front (chunk :: rest) sent) as (rest' & -> & _);
      [lia|done|].
    intros Hloop. apply IH in Hloop as [Hfatal Hraised].
    split; [done|]. simpl in Hraised.
    destruct Hraised as [(ns & rest0 & -> & Hrest)|(ns & -> & Hblock)].
    + left. by exists (k :: ns), rest0.
    + right. by exists (k :: ns).
Qed.

(** A write-ready callback either returns the number [n] of bytes it has
    handed to the socket, and then it has moved exactly the first [n]
    queued bytes to the socket and has not called the protocol nor closed
    anything; or it ends on the exception a [send] raised, one that does
    not ask to try again: the exception of a dead socket, the one the
    socket answered after the sends it accepted, or the would-block of a
    socket without an answer.  Then an open transport is aborted with
    that very exception ([connection_lost] is its last protocol call, the
    queue is dropped and both registrations are removed), whereas a
    transport that is already closing is left as the failure found it,
    the unsent bytes still queued and nothing reported to the protocol.
    In both cases the socket has got a prefix of the queued bytes. *)
Theorem write_ready_returns_or_aborts (t : Transport) :
  match (_ready_write t).2 with
  | Some n =>
      n ≤ length (concat (_write_buffer t))
      ∧ sock_sent (_sock (_ready_write t).1)
        = sock_sent (_sock t) ++ take n (concat (_write_buffer t))
      ∧ concat (_write_buffer (_ready_write t).1)
        = drop n (concat (_write_buffer t))
      ∧ _protocol (_ready_write t).1 = _protocol t
      ∧ _closing (_ready_write t).1 = _closing t
      ∧ sock_closed (_sock (_ready_write t).1) = sock_closed (_sock t)
  | None =>
      ∃ failure n,
        is_SocketError (class_of t) failure
        && _write_continue (class_of t) failure = false
        ∧ (if sock_closed (_sock t)
           then failure = socket_error EBADF "Bad file descriptor"
           else (∃ ns rest,
                   sock_sends (_sock t)
                   = (SendAccepts <$> ns) ++ SendRaises failure :: rest
                   ∧ sock_sends (_sock (_ready_write t).1) = rest)
                ∨ (∃ ns, sock_sends (_sock t) = SendAccepts <$> ns
                         ∧ failure = send_would_block (class_of t)))
        ∧ sock_sent (_sock (_ready_write t).1)
          = sock_sent (_sock t) ++ take n (concat (_write_buffer t))
        ∧ if _closing t then
            _protocol (_ready_write t).1 = _protocol t
            ∧ concat (_write_buffer (_ready_write t).1)
              = drop n (concat (_write_buffer t))
            ∧ sock_closed (_sock (_ready_write t).1) = sock_closed (_sock t)
            ∧ _loop (_ready_write t).1 = _loop t
          else
            _protocol (_ready_write t).1
              = _protocol t ++ [connection_lost (Some failure)]
            ∧ _closing (_ready_write t).1 = true
            ∧ _write_buffer (_ready_write t).1 = []
            ∧ sock_closed (_sock (_ready_write t).1) = true
            ∧ readers (_loop (_ready_write t).1) !! _sock_fd t = None
            ∧ writers (_loop (_ready_write t).1) !! _sock_fd t = None
  end.
Proof.
  unfold _ready_write. destruct (_paused_writing t).
  { simpl. rewrite app_nil_r. repeat split; try done; lia. }
  destruct (send_loop _ _ _ _ _) as [[[s buffer] tot] exit] eqn:Hloop.
  pose proof (send_loop_bound _ _ _ _ _ _ _ _ _ Hloop) as Hbound.
  pose proof (send_loop_sock_closed _ _ _ _ _ _ _ _ _ Hloop) as Hsock.
  pose proof Hloop as Hfail.
  apply send_loop_trims in Hloop as (n & Htot & Hsent & Hbuf).
  simpl in Hbound, Htot. subst tot.
  destruct exit as [|failure]; simpl.
  - assert (Hn : n ≤ length (concat (_write_buffer t))).
    { apply (f_equal length) in Hbuf. rewrite length_drop in Hbuf. lia. }
    by destruct buffer; [destruct (_closing t)|]; simpl.
  - apply send_loop_failure in Hfail as [Hfatal Hraised].
    exists failure, n. split; [done|].
    destruct (_closing t) eqn:Hc; simpl.
    + by repeat split.
    + rewrite !lookup_delete_eq. by repeat split.
Qed.

(** ** What a read-ready callback does *)





(** ** The handshake over several readiness events *)

Lemma handshake_steps_snoc (answers : list handshake_answer)
    (answer : handshake_answer) (t : Transport) :
  handshake_steps (answers ++ [answer]) t
  = (_do_handshake answer (handshake_steps answers t)).1.
Proof. unfold handshake_steps. by rewrite foldl_app. Qed.

(** One step that has to wait for the socket. *)
Lemma handshake_wait_step (answer : handshake_answer) (t : Transport) :
  class_of t = SocketStreamSslTransport →
  wants_read answer || wants_write answer = true →
  class_of (_do_handshake answer t).1 = SocketStreamSslTransport
  ∧ _sock_fd (_do_handshake answer t).1 = _sock_fd t
  ∧ soon (_loop (_do_handshake answer t).1) = soon (_loop t)
  ∧ _protocol (_do_handshake answer t).1 = _protocol t
  ∧ _closing (_do_handshake answer t).1 = _closing t
  ∧ _sock (_do_handshake answer t).1 = _sock t
  ∧ _write_buffer (_do_handshake answer t).1 = _write_buffer t
  ∧ (if wants_read answer then
       readers (_loop (_do_handshake answer t).1) !! _sock_fd t
       = Some cb_do_handshake
       ∧ writers (_loop (_do_handshake answer t).1) = writers (_loop t)
       ∧ _handshake_reading (_do_handshake answer t).1 = true
       ∧ _handshake_writing (_do_handshake answer t).1
         = _handshake_writing t
     else
       writers (_loop (_do_handshake answer t).1) !! _sock_fd t
       = Some cb_do_handshake
       ∧ readers (_loop (_do_handshake answer t).1) = readers (_loop t)
       ∧ _handshake_writing (_do_handshake answer t).1 = true
       ∧ _handshake_reading (_do_handshake answer t).1
         = _handshake_reading t).
Proof.
  intros Hclass Hwait. unfold _do_handshake. rewrite Hclass.
  destruct answer as [|e]; [done|]. unfold wants_read, wants_write in *.
  destruct (is_SocketError SocketStreamSslTransport e); [|done].
  destruct (_read_continue SocketStreamSslTransport e); simpl in *.
  { by rewrite lookup_insert_eq. }
  rewrite Hwait. simpl. by rewrite lookup_insert_eq.
Qed.

(** While the handshake has to wait, whether for reading or for writing
    and however often, [connection_made] is not scheduled, the protocol
    is not called, the queue and the socket are left alone, and after
    the last wait the handshake step is the callback registered for the
    direction that wait asked for. *)
Theorem handshake_waits_announce_nothing
    (answers : list handshake_answer) (t : Transport) :
  class_of t = SocketStreamSslTransport →
  forallb (λ answer, wants_read answer || wants_write answer) answers
  = true →
  soon (_loop (handshake_steps answers t)) = soon (_loop t)
  ∧ _protocol (handshake_steps answers t) = _protocol t
  ∧ _closing (handshake_steps answers t) = _closing t
  ∧ _sock (handshake_steps answers t) = _sock t
  ∧ _write_buffer (handshake_steps answers t) = _write_buffer t
  ∧ match last answers with
    | Some answer =>
        if wants_read answer then
          readers (_loop (handshake_steps answers t)) !! _sock_fd t
          = Some cb_do_handshake
          ∧ _handshake_reading (handshake_steps answers t) = true
        else
          writers (_loop (handshake_steps answers t)) !! _sock_fd t
          = Some cb_do_handshake
          ∧ _handshake_writing (handshake_steps answers t) = true
    | None => True
    end.
Proof.
  intros Hclass Hall.
  enough (H : class_of (handshake_steps answers t) = SocketStreamSslTransport
              ∧ _sock_fd (handshake_steps answers t) = _sock_fd t
              ∧ soon (_loop (handshake_steps answers t)) = soon (_loop t)
              ∧ _protocol (handshake_steps answers t) = _protocol t
              ∧ _closing (handshake_steps answers t) = _closing t
              ∧ _sock (handshake_steps answers t) = _sock t
              ∧ _write_buffer (handshake_steps answers t) = _write_buffer t
              ∧ match last answers with
                | Some answer =>
                    if wants_read answer then
                      readers (_loop (handshake_steps answers t))
                        !! _sock_fd t = Some cb_do_handshake
                      ∧ _handshake_reading (handshake_steps answers t)
                        = true
                    else
                      writers (_loop (handshake_steps answers t))
                        !! _sock_fd t = Some cb_do_handshake
                      ∧ _handshake_writing (handshake_steps answers t)
                        = true
                | None => True
                end).
  { by destruct H as (_ & _ & H). }
  induction answers as [|answer answers IH] using rev_ind; [done|].
  rewrite forallb_app in Hall. apply andb_true_iff in Hall as [Hall Ha].
  simpl in Ha. rewrite andb_true_r in Ha.
  destruct (IH Hall) as (Hclass' & Hfd & Hsoon & Hproto & Hc & Hs & Hb & _).
  rewrite handshake_steps_snoc, last_snoc.
  destruct (handshake_wait_step answer _ Hclass' Ha)
    as (-> & -> & -> & -> & -> & -> & -> & Hreg).
  rewrite Hfd in Hreg.
  repeat (split; [done|]).
  destruct (wants_read answer); by destruct Hreg as (? & _ & ? & _).
Qed.

Lemma handshake_read_waits (answers : list handshake_answer)
    (t : Transport) :
  class_of t = SocketStreamSslTransport →
  forallb wants_read answers = true →
  class_of (handshake_steps answers t) = SocketStreamSslTransport
  ∧ _sock_fd (handshake_steps answers t) = _sock_fd t
  ∧ soon (_loop (handshake_steps answers t)) = soon (_loop t)
  ∧ _protocol (handshake_steps answers t) = _protocol t
  ∧ writers (_loop (handshake_steps answers t)) = writers (_loop t)
  ∧ (answers ≠ [] → _handshake_reading (handshake_steps answers t) = true).
Proof.
  intros Hclass Hall.
  induction answers as [|answer answers IH] using rev_ind; [done|].
  rewrite forallb_app in Hall. apply andb_true_iff in Hall as [Hall Ha].
  simpl in Ha. rewrite andb_true_r in Ha.
  destruct (IH Hall) as (Hclass' & Hfd & Hsoon & Hproto & Hw & _).
  rewrite handshake_steps_snoc.
  destruct (handshake_wait_step answer (handshake_steps answers t) Hclass')
    as (-> & -> & -> & -> & _ & _ & _ & Hreg).
  { by rewrite Ha. }
  rewrite Ha in Hreg. destruct Hreg as (_ & -> & -> & _). done.
Qed.

(** When the handshake has only ever waited for reading and then
    succeeds, the handshake step is no longer registered: [_ready_read]
    is the read callback, the write registration is what it was before
    the handshake began, both flags are cleared, and [connection_made] is
    scheduled exactly once and not called. *)
Theorem handshake_completes_after_read_waits
    (answers : list handshake_answer) (t : Transport) :
  class_of t = SocketStreamSslTransport →
  answers ≠ [] →
  forallb wants_read answers = true →
  readers (_loop (handshake_steps (answers ++ [HandshakeDone]) t))
    !! _sock_fd t = Some cb_ready_read
  ∧ writers (_loop (handshake_steps (answers ++ [HandshakeDone]) t))
    = writers (_loop t)
  ∧ soon (_loop (handshake_steps (answers ++ [HandshakeDone]) t))
    = soon (_loop t) ++ [cb_connection_made]
  ∧ _handshake_reading (handshake_steps (answers ++ [HandshakeDone]) t)
    = false
  ∧ _handshake_writing (handshake_steps (answers ++ [HandshakeDone]) t)
    = false
  ∧ _protocol (handshake_steps (answers ++ [HandshakeDone]) t)
    = _protocol t.
Proof.
  intros Hclass Hsome Hall.
  destruct (handshake_read_waits answers t Hclass Hall)
    as (Hclass' & Hfd & Hsoon & Hproto & Hw & Hr).
  specialize (Hr Hsome). rewrite handshake_steps_snoc.
  unfold _do_handshake. rewrite Hclass', Hr. simpl.
  by rewrite Hfd, lookup_insert_eq, Hw, Hsoon, Hproto.
Qed.

(** A handshake that waits first for writing and then for reading, and
    then succeeds: the success restores the read registration only, so
    the handshake step stays registered as the write callback of the
    established transport; when the reactor calls it again and
    [do_handshake] succeeds again, [connection_made] is scheduled a
    second time. *)
Theorem handshake_step_survives_mixed_waits
    (write_wait read_wait : handshake_answer) (t : Transport) :
  class_of t = SocketStreamSslTransport →
  wants_write write_wait = true →
  wants_read read_wait = true →
  writers (_loop (handshake_steps [write_wait; read_wait; HandshakeDone] t))
    !! _sock_fd t = Some cb_do_handshake
  ∧ readers (_loop (handshake_steps [write_wait; read_wait; HandshakeDone] t))
    !! _sock_fd t = Some cb_ready_read
  ∧ soon (_loop (handshake_steps [write_wait; read_wait; HandshakeDone] t))
    = soon (_loop t) ++ [cb_connection_made]
  ∧ soon (_loop (handshake_steps
                   [write_wait; read_wait; HandshakeDone; HandshakeDone] t))
    = soon (_loop t) ++ [cb_connection_made; cb_connection_made].
Proof.
  intros Hclass Hw Hr. unfold handshake_steps. cbn [foldl].
  destruct (handshake_wait_step write_wait t Hclass)
    as (Hclass1 & Hfd1 & Hsoon1 & _ & _ & _ & _ & Hreg1).
  { by rewrite Hw, orb_true_r. }
  assert (Hnr : wants_read write_wait = false).
  { unfold wants_read, wants_write in *. destruct write_wait; [done|].
    destruct (is_SocketError _ _); [|done].
    by destruct (_read_continue _ _). }
  rewrite Hnr in Hreg1. destruct Hreg1 as (Hwriters1 & _ & _ & _).
  set (t1 := (_do_handshake write_wait t).1) in *.
  destruct (handshake_wait_step read_wait t1 Hclass1)
    as (Hclass2 & Hfd2 & Hsoon2 & _ & _ & _ & _ & Hreg2).
  { by rewrite Hr. }
  rewrite Hr in Hreg2. destruct Hreg2 as (_ & Hwriters2 & Hr2 & _).
  set (t2 := (_do_handshake read_wait t1).1) in *.
  assert (Hstep3 :
    writers (_loop (_do_handshake HandshakeDone t2).1) = writers (_loop t2)
    ∧ readers (_loop (_do_handshake HandshakeDone t2).1) !! _sock_fd t2
      = Some cb_ready_read
    ∧ soon (_loop (_do_handshake HandshakeDone t2).1)
      = soon (_loop t2) ++ [cb_connection_made]
    ∧ class_of (_do_handshake HandshakeDone t2).1
      = SocketStreamSslTransport
    ∧ _handshake_reading (_do_handshake HandshakeDone t2).1 = false).
  { unfold _do_handshake. rewrite Hclass2, Hr2. simpl.
    by rewrite lookup_insert_eq. }
  destruct Hstep3 as (Hwriters3 & Hreaders3 & Hsoon3 & Hclass3 & Hr3).
  set (t3 := (_do_handshake HandshakeDone t2).1) in *.
  rewrite Hfd2, Hfd1 in Hreaders3.
  rewrite Hwriters3, Hwriters2, Hwriters1, Hreaders3, Hsoon3, Hsoon2, Hsoon1.
  repeat (split; [done|]).
  unfold _do_handshake at 1. rewrite Hclass3, Hr3.
  destruct (_handshake_writing t3); simpl;
    by rewrite Hsoon3, Hsoon2, Hsoon1, <- app_assoc.
Qed.

(** ** Listening: the successful startup *)

Lemma bind_listeners_success (net : Network) (reuse_address : bool)
    (infos : list addrinfo) :
  ∀ w sockets w' sockets',
    bind_listeners net reuse_address infos w sockets
    = (w', sockets', Return tt) →
    sockets' = sockets ++ seqZ (next_fd w) (Z.of_nat (length infos))
    ∧ calls w' = calls w ++ opening reuse_address (next_fd w) infos.
Proof.
  induction infos as [|info rest IH]; intros w sockets w' sockets'.
  { intros [= <- <-]. by rewrite !app_nil_r. }
  cbn [bind_listeners]. unfold socket_factory.
  destruct (socket_answer net _ _ _) as [e|]; [done|].
  destruct (bind_answer net _ _) as [[errno strerror]|]; [done|].
  intros Hrest. apply IH in Hrest as [-> ->].
  assert (Hseq : seqZ (next_fd w) (Z.of_nat (S (length rest)))
                 = next_fd w
                   :: seqZ (next_fd w + 1) (Z.of_nat (length rest))).
  { rewrite seqZ_cons by lia. f_equal. f_equal; lia. }
  cbn [length opening]. rewrite Hseq. unfold open_and_bind.
  destruct reuse_address,
    ((ai_family info =? AF_INET6)%Z && has_IPPROTO_IPV6);
    simpl; by rewrite <- !app_assoc.
Qed.

Lemma listen_all_success (net : Network) (backlog : Z) (sockets : list Z) :
  ∀ w l w' l',
    listen_all net backlog sockets w l = (w', l', Return tt) →
    calls w' = calls w ++ listening backlog sockets
    ∧ l' = accepting sockets l.
Proof.
  unfold accepting.
  induction sockets as [|fd sockets IH]; intros w l w' l'; simpl.
  { intros [= <- <-]. by rewrite app_nil_r. }
  destruct (listen_answer net fd); [done|].
  intros Hrest. apply IH in Hrest as [-> ->]. simpl.
  by rewrite <- !app_assoc.
Qed.

Lemma accepting_spec (sockets : list Z) :
  ∀ l, writers (accepting sockets l) = writers l
       ∧ soon (accepting sockets l) = soon l
       ∧ (∀ fd, fd ∈ sockets →
            readers (accepting sockets l) !! fd
            = Some cb_sock_accept_connection)
       ∧ (∀ fd, fd ∉ sockets →
            readers (accepting sockets l) !! fd = readers l !! fd).
Proof.
  unfold accepting.
  induction sockets as [|fd0 sockets IH] using rev_ind; intros l.
  { simpl. split; [done|]. split; [done|]. split; [|done].
    intros fd Hin. by apply elem_of_nil in Hin. }
  rewrite foldl_app. simpl. destruct (IH l) as (Hw & Hs & Hin & Hout).
  split; [done|]. split; [done|]. split.
  - intros fd Hfd. destruct (decide (fd = fd0)) as [->|Hne].
    + apply lookup_insert_eq.
    + rewrite lookup_insert_ne by done. apply Hin.
      apply elem_of_app in Hfd as [Hfd|Hfd]; [done|].
      apply list_elem_of_singleton in Hfd. done.
  - intros fd Hfd. apply not_elem_of_app in Hfd as [Hfd Hne].
    rewrite lookup_insert_ne; [by apply Hout|].
    intros ->. apply Hne, list_elem_of_here.
Qed.

Lemma opening_no_close (reuse_address : bool) (infos : list addrinfo) :
  ∀ fd fd', sys_close fd' ∉ opening reuse_address fd infos.
Proof.
  induction infos as [|info rest IH]; intros fd fd'; simpl.
  { apply not_elem_of_nil. }
  unfold open_and_bind.
  destruct reuse_address,
    ((ai_family info =? AF_INET6)%Z && has_IPPROTO_IPV6);
    simpl; rewrite ?not_elem_of_cons; repeat (split; [done|]); apply IH.
Qed.

Lemma listening_no_close (backlog : Z) (sockets : list Z) (fd' : Z) :
  sys_close fd' ∉ listening backlog sockets.
Proof.
  induction sockets as [|fd sockets IH]; simpl.
  { apply not_elem_of_nil. }
  rewrite !not_elem_of_cons. done.
Qed.

(** A startup on resolved addresses that succeeds has made exactly these
    calls, in this order: for each address in resolver order a socket on
    the next descriptor, [SO_REUSEADDR] if address reuse is on (by
    default on POSIX platforms other than Cygwin), [IPV6_V6ONLY] on
    IPv6 sockets and on no others, and the bind; then, socket by
    socket, [listen] with the backlog and the switch to non-blocking
    mode.  The server holds those sockets in that order, each has the
    accept callback as its read registration, nothing else in the
    reactor has changed, and no socket has been closed. *)
Theorem successful_startup_makes_exactly_these_calls (net : Network)
    (host : option string) (port : option Z) (backlog : Z)
    (reuse_address : option bool) (w w' : World) (l l' : EventLoop)
    (sockets : list Z) (infos : list addrinfo) :
  host ≠ None ∨ port ≠ None →
  getaddrinfo net (if bool_decide (host = Some "") then None else host) port
  = Return infos →
  start_serving net host port None backlog reuse_address w l
  = (w', l', Return sockets) →
  sockets = seqZ (next_fd w) (Z.of_nat (length infos))
  ∧ calls_since w w'
    = opening (default posix_not_cygwin reuse_address) (next_fd w) infos
      ++ listening backlog sockets
  ∧ l' = accepting sockets l
  ∧ (∀ fd, fd ∈ sockets →
       readers l' !! fd = Some cb_sock_accept_connection)
  ∧ writers l' = writers l
  ∧ soon l' = soon l
  ∧ (∀ fd, sys_close fd ∉ calls_since w w').
Proof.
  intros Hgiven Hresolve. unfold start_serving.
  rewrite host_or_port_given, Hresolve by done.
  destruct infos as [|info infos]; [done|].
  replace (match reuse_address with Some b => b | None => posix_not_cygwin end)
    with (default posix_not_cygwin reuse_address)
    by (by destruct reuse_address).
  destruct (bind_listeners _ _ _ _ _) as [[w1 sockets1] r1] eqn:Hbind.
  destruct r1 as [[]|e]; [|done].
  apply bind_listeners_success in Hbind as [Hsockets Hcalls].
  simpl in Hsockets.
  destruct (listen_all _ _ _ _ _) as [[w2 l2] r2] eqn:Hlisten.
  destruct r2 as [[]|e]; [|done].
  apply listen_all_success in Hlisten as [Hcalls2 ->].
  intros [= <- <- <-]. rewrite Hcalls, <- app_assoc in Hcalls2.
  rewrite (calls_since_app _ _ _ Hcalls2).
  destruct (accepting_spec sockets1 l) as (Hw & Hs & Hin & _).
  repeat (split; [done|]).
  intros fd Hclose. apply elem_of_app in Hclose as [Hclose|Hclose].
  - by apply opening_no_close in Hclose.
  - by apply listening_no_close in Hclose.
Qed.

(** Listening on sockets that are handed in: no socket is opened, bound
    or closed; each socket is put into listening mode and gets the accept
    callback, in the order given, and the server holds exactly those
    sockets.  Without host, port and socket the call is refused. *)
Theorem prebuilt_sockets_are_only_listened_on (net : Network)
    (sockets : list Z) (backlog : Z) (reuse_address : option bool)
    (w : World) (l : EventLoop) :
  sockets ≠ [] →
  (∀ fd, fd ∈ sockets → listen_answer net fd = None) →
  start_serving net None None (Some (inr sockets)) backlog reuse_address w l
  = (mkWorld (next_fd w) (calls w ++ listening backlog sockets),
     accepting sockets l, Return sockets)
  ∧ start_serving net None None (Some (inr [])) backlog reuse_address w l
    = (w, l, Raise (ValueError
         "host and port was not specified and no sock specified"))
  ∧ start_serving net None None None backlog reuse_address w l
    = (w, l, Raise (ValueError
         "host and port was not specified and no sock specified")).
Proof.
  intros Hsome Hok. split; [|done]. unfold start_serving. simpl.
  destruct sockets as [|fd0 rest]; [done|].
  set (sockets := fd0 :: rest) in *. clearbody sockets.
  enough (H : ∀ w l,
    listen_all net backlog sockets w l
    = (mkWorld (next_fd w) (calls w ++ listening backlog sockets),
       accepting sockets l, Return tt)) by (by rewrite H).
  clear Hsome. unfold accepting.
  induction sockets as [|fd sockets IH]; intros w0 l0; simpl.
  { rewrite app_nil_r. by destruct w0. }
  rewrite Hok by apply list_elem_of_here.
  rewrite IH by (intros; apply Hok; by apply list_elem_of_further).
  simpl. by rewrite <- !app_assoc.
Qed.

(** ** Listening: a failing [listen] *)

Lemma listen_all_failure (net : Network) (backlog : Z) (sockets : list Z) :
  ∀ w l w' l' e,
    listen_all net backlog sockets w l = (w', l', Raise e) →
    ∃ served fd0 rest,
      sockets = served ++ fd0 :: rest
      ∧ listen_answer net fd0 = Some e
      ∧ (∀ fd', fd' ∈ served → listen_answer net fd' = None)
      ∧ calls w' = calls w ++ listening backlog served
                   ++ [sys_listen fd0 backlog]
      ∧ l' = accepting served l.
Proof.
  unfold accepting.
  induction sockets as [|fd sockets IH]; intros w l w' l' e; simpl; [done|].
  destruct (listen_answer net fd) as [e0|] eqn:Hl.
  - intros [= <- <- <-]. exists [], fd, sockets.
    repeat split; try done. intros fd' Hin. by apply elem_of_nil in Hin.
  - intros Hrest.
    apply IH in Hrest as (served & fd0 & rest & -> & He & Hok & -> & ->).
    exists (fd :: served), fd0, rest. simpl.
    rewrite <- !app_assoc. repeat split; try done.
    intros fd' Hin. apply elem_of_cons in Hin as [->|Hin]; [done|].
    by apply Hok.
Qed.

Lemma opening_no_listen (reuse_address : bool) (infos : list addrinfo) :
  ∀ fd fd' backlog, sys_listen fd' backlog ∉ opening reuse_address fd infos.
Proof.
  induction infos as [|info rest IH]; intros fd fd' backlog; simpl.
  { apply not_elem_of_nil. }
  unfold open_and_bind.
  destruct reuse_address,
    ((ai_family info =? AF_INET6)%Z && has_IPPROTO_IPV6);
    simpl; rewrite ?not_elem_of_cons; repeat (split; [done|]); apply IH.
Qed.

Lemma listening_sockets (backlog : Z) (sockets : list Z) (fd : Z) :
  sys_listen fd backlog ∈ listening backlog sockets ↔ fd ∈ sockets.
Proof.
  induction sockets as [|fd0 sockets IH]; simpl.
  { split; intros Hin; by apply elem_of_nil in Hin. }
  rewrite !elem_of_cons, IH. split.
  - intros [[= ->]|[[=]|Hin]]; by auto.
  - intros [->|Hin]; by auto.
Qed.

(** Only the binds are all-or-nothing.  When [start_serving] raises after
    it has called [listen], the exception is that of a [listen], which is
    the last call: since the first [listen] the calls are those that put
    the sockets [served] into listening mode, in order, followed by the
    failing [listen]; no socket is closed; and the reactor has the accept
    callback registered for exactly the sockets [served], so every socket
    whose [listen] succeeded is being served, in non-blocking mode. *)
Theorem listen_failure_leaves_the_sockets_open (net : Network)
    (host : option string) (port : option Z) (sock : option (Z + list Z))
    (backlog : Z) (reuse_address : option bool) (w w' : World)
    (l l' : EventLoop) (e : exn) (fd : Z) :
  start_serving net host port sock backlog reuse_address w l
  = (w', l', Raise e) →
  sys_listen fd backlog ∈ calls_since w w' →
  (∀ fd', sys_close fd' ∉ calls_since w w')
  ∧ (∃ cs served fd0,
       calls_since w w'
       = cs ++ listening backlog served ++ [sys_listen fd0 backlog]
       ∧ (∀ fd' backlog', sys_listen fd' backlog' ∉ cs)
       ∧ listen_answer net fd0 = Some e
       ∧ (∀ fd', fd' ∈ served → listen_answer net fd' = None)
       ∧ l' = accepting served l)
  ∧ (∀ fd',
       sys_listen fd' backlog ∈ calls_since w w' →
       listen_answer net fd' = None →
       readers l' !! fd' = Some cb_sock_accept_connection
       ∧ sys_setblocking fd' false ∈ calls_since w w').
Proof.
  unfold start_serving. intros Hstart Hin.
  assert (Hnocalls : calls_since w w = []).
  { unfold calls_since. by rewrite drop_all. }
  assert (Hserve : ∀ sockets w1 cs,
    calls w1 = calls w ++ cs →
    (∀ fd', sys_close fd' ∉ cs) →
    (∀ fd' backlog', sys_listen fd' backlog' ∉ cs) →
    match listen_all net backlog sockets w1 l with
    | (w, l, Raise e) => (w, l, Raise e)
    | (w, l, Return _) => (w, l, Return sockets)
    end = (w', l', Raise e) →
    (∀ fd', sys_close fd' ∉ calls_since w w')
    ∧ (∃ cs served fd0,
         calls_since w w'
         = cs ++ listening backlog served ++ [sys_listen fd0 backlog]
         ∧ (∀ fd' backlog', sys_listen fd' backlog' ∉ cs)
         ∧ listen_answer net fd0 = Some e
         ∧ (∀ fd', fd' ∈ served → listen_answer net fd' = None)
         ∧ l' = accepting served l)
    ∧ (∀ fd',
         sys_listen fd' backlog ∈ calls_since w w' →
         listen_answer net fd' = None →
         readers l' !! fd' = Some cb_sock_accept_connection
         ∧ sys_setblocking fd' false ∈ calls_since w w')).
  { intros sockets w1 cs Hw1 Hnoclose Hnolisten Hlisten.
    destruct (listen_all net backlog sockets w1 l) as [[w2 l2] r2] eqn:Hl.
    destruct r2 as [[]|e2]; [done|]. injection Hlisten as -> -> ->.
    apply listen_all_failure in Hl
      as (served & fd0 & rest & -> & He & Hok & Hcalls & ->).
    rewrite Hw1, <- app_assoc in Hcalls.
    rewrite (calls_since_app _ _ _ Hcalls). split; [|split].
    - intros fd'. rewrite !not_elem_of_app. split; [done|]. split.
      + apply listening_no_close.
      + rewrite not_elem_of_cons. split; [done|apply not_elem_of_nil].
    - by exists cs, served, fd0.
    - intros fd' Hfd' Hnone. rewrite !elem_of_app in Hfd'.
      destruct Hfd' as [Hfd'|[Hfd'|Hfd']].
      + by apply Hnolisten in Hfd'.
      + apply listening_sockets in Hfd'. split.
        * by apply accepting_spec.
        * rewrite !elem_of_app. right. left.
          clear -Hfd'. induction served as [|fd1 served IH]; simpl.
          { by apply elem_of_nil in Hfd'. }
          apply elem_of_cons in Hfd' as [->|Hfd'].
          -- apply list_elem_of_further, list_elem_of_here.
          -- by do 2 apply list_elem_of_further; apply IH.
      + apply list_elem_of_singleton in Hfd'. injection Hfd' as ->.
        congruence. }
  destruct (bool_decide (host ≠ None) || bool_decide (port ≠ None)).
  2:{ destruct sock as [[fd0|[|fd0 sockets]]|];
        try (injection Hstart as <- <- <-; rewrite Hnocalls in Hin;
             by apply elem_of_nil in Hin);
        (eapply (Hserve _ w []); [by rewrite app_nil_r| | |exact Hstart];
         intros; apply not_elem_of_nil). }
  destruct sock.
  { injection Hstart as <- <- <-. rewrite Hnocalls in Hin.
    by apply elem_of_nil in Hin. }
  destruct (getaddrinfo net _ port) as [[|info infos]|e0].
  { injection Hstart as <- <- <-. rewrite Hnocalls in Hin.
    by apply elem_of_nil in Hin. }
  2:{ injection Hstart as <- <- <-. rewrite Hnocalls in Hin.
      by apply elem_of_nil in Hin. }
  destruct (bind_listeners _ _ _ _ _) as [[w1 sockets] r1] eqn:Hbind.
  destruct r1 as [[]|e1].
  - apply bind_listeners_success in Hbind as [_ Hcalls].
    apply (Hserve sockets w1 _ Hcalls); [| |done].
    + intros fd'. apply opening_no_close.
    + intros fd' backlog'. apply opening_no_listen.
  - exfalso. injection Hstart as <- <- <-.
    apply bind_listeners_calls in Hbind
      as (new & cs & Hsockets & Hcalls & _ & Hlisten & _).
    destruct (close_all_calls sockets w1) as [Hclosed _].
    rewrite Hcalls, <- app_assoc in Hclosed.
    rewrite (calls_since_app _ _ _ Hclosed) in Hin.
    apply elem_of_app in Hin as [Hin|Hin]; [by apply Hlisten in Hin|].
    apply list_elem_of_fmap in Hin as (? & ? & ?). done.
Qed.

(** ** Active connections: the candidate that connects *)

Lemma bind_local_calls (net : Network) (fd : Z) (laddr_infos : list addrinfo) :
  ∀ w exceptions w' exceptions' bound,
    bind_local net fd laddr_infos w exceptions = (w', exceptions', bound) →
    next_fd w' = next_fd w
    ∧ ∃ bs, calls w' = calls w ++ bs
            ∧ Forall (λ c, ∃ addr, c = sys_bind fd addr) bs.
Proof.
  induction laddr_infos as [|info rest IH];
    intros w exceptions w' exceptions' bound; simpl.
  { intros [= <- <- <-]. split; [done|]. exists []. by rewrite app_nil_r. }
  destruct (bind_answer net fd (ai_addr info)) as [[errno strerror]|].
  - intros Hrest. apply IH in Hrest as (-> & bs & -> & Hbs).
    split; [done|]. exists (sys_bind fd (ai_addr info) :: bs). simpl.
    rewrite <- app_assoc. split; [done|]. constructor; [by eexists|done].
  - intros [= <- <- <-]. split; [done|].
    exists [sys_bind fd (ai_addr info)]. split; [done|].
    constructor; [by eexists|done].
Qed.

Lemma binds_leave_open (fd lo hi : Z) (bs : list syscall) :
  Forall (λ c, ∃ addr, c = sys_bind fd addr) bs → leaves_open lo hi bs.
Proof.
  unfold leaves_open. intros Hbs. eapply Forall_impl; [exact Hbs|].
  by intros c [addr ->].
Qed.

Lemma leaves_open_weaken (lo lo' fd : Z) (cs : list syscall) :
  (lo ≤ lo')%Z → leaves_open lo' fd cs → leaves_open lo fd cs.
Proof.
  intros Hlo. unfold leaves_open. intros Hcs.
  eapply Forall_impl; [exact Hcs|].
  intros [] ?; try done. simpl in *. lia.
Qed.

(** The loop that ends with a connected socket: the successful connect
    is its last call, the connected socket was opened by the loop and is
    not closed, and every other socket the loop has opened is closed. *)
Lemma connect_candidates_connected (net : Network)
    (laddr_infos : option (list addrinfo)) (infos : list addrinfo) :
  ∀ sock w exceptions w' fd,
    (∀ fd0, sock = Some fd0 → (fd0 < next_fd w)%Z) →
    connect_candidates net laddr_infos infos sock w exceptions
    = (w', Connected fd) →
    ∃ cs addr,
      calls w' = calls w ++ cs ++ [sys_connect fd addr]
      ∧ connect_answer net fd addr = None
      ∧ leaves_open (next_fd w) fd cs
      ∧ (∀ fd' family type proto,
           sys_socket fd' family type proto ∈ cs →
           fd' = fd ∨ sys_close fd' ∈ cs)
      ∧ (∃ family type proto, sys_socket fd family type proto ∈ cs).
Proof.
  induction infos as [|info rest IH];
    intros sock w exceptions w' fd Hsock; [done|].
  cbn [connect_candidates]. unfold socket_factory.
  destruct (socket_answer net _ _ _) as [e|].
  { destruct (is_socket_error e); [|done]. intros Hrest.
    apply IH in Hrest as (cs & addr & Hcalls & Hok & Hopen & Hothers & Hfd).
    2:{ intros fd0 ->. specialize (Hsock fd0 eq_refl). by simpl. }
    assert (Hnext : next_fd (close_if_some sock
                     (log (sys_socket_failed (ai_family info)
                        (ai_socktype info) (ai_proto info)) w))
                    = next_fd w) by (by destruct sock).
    rewrite Hnext in Hopen.
    assert (Hlo : (next_fd w ≤ fd)%Z).
    { destruct Hfd as (f & ty & p & Hin). unfold leaves_open in Hopen.
      rewrite Forall_forall in Hopen. apply Hopen in Hin. lia. }
    exists (sys_socket_failed (ai_family info) (ai_socktype info)
                              (ai_proto info)
            :: match sock with
               | Some fd0 => [sys_close fd0]
               | None => []
               end ++ cs), addr.
    split; [|split; [done|split; [|split]]].
    - rewrite Hcalls. destruct sock; simpl; by rewrite <- !app_assoc.
    - constructor; [done|]. apply Forall_app. split; [|done].
      destruct sock as [fd0|]; [|done].
      constructor; [|done]. specialize (Hsock fd0 eq_refl). lia.
    - intros fd' f ty p Hin. apply elem_of_cons in Hin as [[=]|Hin].
      apply elem_of_app in Hin as [Hin|Hin].
      { destruct sock; [|by apply elem_of_nil in Hin].
        apply list_elem_of_singleton in Hin. done. }
      destruct (Hothers _ _ _ _ Hin) as [->|Hclose]; [by left|].
      right. apply list_elem_of_further, elem_of_app. by right.
    - destruct Hfd as (f & ty & p & Hin). exists f, ty, p.
      apply list_elem_of_further, elem_of_app. by right. }
  set (fd1 := next_fd w).
  set (w1 := log (sys_setblocking fd1 false) _).
  assert (Hw1 : next_fd w1 = (fd1 + 1)%Z
                ∧ calls w1 = calls w
                    ++ [sys_socket fd1 (ai_family info) (ai_socktype info)
                                   (ai_proto info);
                        sys_setblocking fd1 false]).
  { unfold w1. simpl. by rewrite <- app_assoc. }
  destruct Hw1 as [Hnext1 Hcalls1]. clearbody w1.
  assert (Hbind : ∃ w2 exceptions2 bound bs,
    match laddr_infos with
    | Some laddrs => bind_local net fd1 laddrs w1 exceptions
    | None => (w1, exceptions, true)
    end = (w2, exceptions2, bound)
    ∧ next_fd w2 = (fd1 + 1)%Z
    ∧ calls w2 = calls w1 ++ bs
    ∧ Forall (λ c, ∃ addr, c = sys_bind fd1 addr) bs).
  { destruct laddr_infos as [laddrs|].
    - destruct (bind_local net fd1 laddrs w1 exceptions)
        as [[w2 exceptions2] bound] eqn:Hb.
      apply bind_local_calls in Hb as (Hn & bs & Hc & Hbs).
      exists w2, exceptions2, bound, bs. by rewrite Hn.
    - exists w1, exceptions, true, []. by rewrite app_nil_r. }
  destruct Hbind as (w2 & exceptions2 & bound & bs & -> & Hnext2 & Hcalls2
                     & Hbs).
  assert (Hnosock : ∀ fd' f ty p, sys_socket fd' f ty p ∉ bs).
  { intros fd' f ty p Hin. rewrite Forall_forall in Hbs.
    by apply Hbs in Hin as [addr [=]]. }
  destruct bound.
  - destruct (connect_answer net fd1 (ai_addr info)) as [e|] eqn:Hanswer.
    + destruct (is_socket_error e); [|done]. intros Hrest.
      apply IH in Hrest
        as (cs & addr & Hcalls & Hok & Hopen & Hothers & Hfd).
      2:{ intros fd0 [= <-]. simpl. lia. }
      simpl in Hopen, Hcalls. rewrite Hnext2 in Hopen.
      assert (Hlo : (fd1 + 1 ≤ fd)%Z).
      { destruct Hfd as (f & ty & p & Hin). unfold leaves_open in Hopen.
        rewrite Forall_forall in Hopen. apply Hopen in Hin. lia. }
      exists ([sys_socket fd1 (ai_family info) (ai_socktype info)
                          (ai_proto info);
               sys_setblocking fd1 false]
              ++ bs ++ [sys_connect fd1 (ai_addr info); sys_close fd1]
              ++ cs), addr.
      split; [|split; [done|split; [|split]]].
      * rewrite Hcalls, Hcalls2, Hcalls1. simpl.
        by rewrite <- !app_assoc.
      * apply Forall_app. split.
        { constructor; [unfold fd1; lia|]. by constructor. }
        apply Forall_app. split; [by eapply binds_leave_open|].
        constructor; [done|]. constructor; [lia|].
        eapply leaves_open_weaken; [|done]. unfold fd1. lia.
      * intros fd' f ty p Hin. rewrite !elem_of_app in Hin.
        destruct Hin as [Hin|[Hin|[Hin|Hin]]].
        -- right. apply elem_of_cons in Hin as [[= -> _ _ _]|Hin].
           ++ rewrite !elem_of_app. right. right. left.
              apply list_elem_of_further, list_elem_of_here.
           ++ apply list_elem_of_singleton in Hin. done.
        -- by apply Hnosock in Hin.
        -- apply elem_of_cons in Hin as [[=]|Hin].
           apply list_elem_of_singleton in Hin. done.
        -- destruct (Hothers _ _ _ _ Hin) as [->|Hclose]; [by left|].
           right. rewrite !elem_of_app. by do 3 right.
      * destruct Hfd as (f & ty & p & Hin). exists f, ty, p.
        rewrite !elem_of_app. by do 3 right.
    + intros [= <- <-].
      exists ([sys_socket fd1 (ai_family info) (ai_socktype info)
                          (ai_proto info);
               sys_setblocking fd1 false] ++ bs), (ai_addr info).
      split; [|split; [done|split; [|split]]].
      * simpl. rewrite Hcalls2, Hcalls1. by rewrite <- !app_assoc.
      * apply Forall_app. split; [|by eapply binds_leave_open].
        constructor; [unfold fd1; lia|]. by constructor.
      * intros fd' f ty p Hin. apply elem_of_app in Hin as [Hin|Hin];
          [|by apply Hnosock in Hin].
        apply elem_of_cons in Hin as [[= -> _ _ _]|Hin]; [by left|].
        apply list_elem_of_singleton in Hin. done.
      * exists (ai_family info), (ai_socktype info), (ai_proto info).
        apply elem_of_app. left. apply list_elem_of_here.
  - intros Hrest.
    apply IH in Hrest as (cs & addr & Hcalls & Hok & Hopen & Hothers & Hfd);
      [|done].
    simpl in Hopen, Hcalls. rewrite Hnext2 in Hopen.
    assert (Hlo : (fd1 + 1 ≤ fd)%Z).
    { destruct Hfd as (f & ty & p & Hin). unfold leaves_open in Hopen.
      rewrite Forall_forall in Hopen. apply Hopen in Hin. lia. }
    exists ([sys_socket fd1 (ai_family info) (ai_socktype info)
                        (ai_proto info);
             sys_setblocking fd1 false]
            ++ bs ++ [sys_close fd1] ++ cs), addr.
    split; [|split; [done|split; [|split]]].
    + rewrite Hcalls, Hcalls2, Hcalls1. simpl. by rewrite <- !app_assoc.
    + apply Forall_app. split.
      { constructor; [unfold fd1; lia|]. by constructor. }
      apply Forall_app. split; [by eapply binds_leave_open|].
      constructor; [lia|].
      eapply leaves_open_weaken; [|done]. unfold fd1. lia.
    + intros fd' f ty p Hin. rewrite !elem_of_app in Hin.
      destruct Hin as [Hin|[Hin|[Hin|Hin]]].
      * right. apply elem_of_cons in Hin as [[= -> _ _ _]|Hin].
        -- rewrite !elem_of_app. right. right. left.
           apply list_elem_of_here.
        -- apply list_elem_of_singleton in Hin. done.
      * by apply Hnosock in Hin.
      * apply list_elem_of_singleton in Hin. done.
      * destruct (Hothers _ _ _ _ Hin) as [->|Hclose]; [by left|].
        right. rewrite !elem_of_app. by do 3 right.
    + destruct Hfd as (f & ty & p & Hin). exists f, ty, p.
      rewrite !elem_of_app. by do 3 right.
Qed.

(** When [create_connection] returns a transport for a host and port, it
    is built, plain or TLS as asked, around the socket of the first
    candidate whose connect succeeded: that connect and the switch to
    non-blocking mode are the last two calls, the socket is not closed,
    and every other socket the attempt has opened is closed. *)
Theorem connected_candidate_is_the_only_socket_left (net : Network)
    (host : option string) (port : option Z) (ssl : bool)
    (local_addr : option (string * Z)) (w w' : World)
    (c : transport_class) (fd : Z) :
  host ≠ None ∨ port ≠ None →
  create_connection net host port ssl None local_addr w
  = (w', Return (c, fd)) →
  c = (if ssl then SocketStreamSslTransport else SocketStreamTransport)
  ∧ (∃ cs addr,
       calls_since w w'
       = cs ++ [sys_connect fd addr; sys_setblocking fd false]
       ∧ connect_answer net fd addr = None)
  ∧ (sys_close fd ∉ calls_since w w')
  ∧ (∃ family type proto,
       sys_socket fd family type proto ∈ calls_since w w')
  ∧ (∀ fd' family type proto,
       sys_socket fd' family type proto ∈ calls_since w w' →
       fd' ≠ fd → sys_close fd' ∈ calls_since w w').
Proof.
  intros Hgiven. unfold create_connection.
  rewrite host_or_port_given by done.
  destruct (resolve net host port local_addr) as [[infos laddr_infos]|e];
    [|done].
  destruct (connect_candidates _ _ _ _ _ _) as [w1 [fd1|exceptions|e]] eqn:Hloop;
    [|done..].
  unfold connected. intros [= <- <- <-].
  apply connect_candidates_connected in Hloop
    as (cs & addr & Hcalls & Hok & Hopen & Hothers & Hfd); [|done].
  assert (Hsince : calls_since w (log (sys_setblocking fd1 false) w1)
                   = cs ++ [sys_connect fd1 addr; sys_setblocking fd1 false]).
  { apply calls_since_app. simpl. rewrite Hcalls.
    by rewrite <- !app_assoc. }
  rewrite Hsince. split; [done|]. split; [by exists cs, addr|].
  unfold leaves_open in Hopen. rewrite Forall_forall in Hopen.
  split; [|split].
  - rewrite not_elem_of_app, !not_elem_of_cons. split.
    + intros Hin. apply Hopen in Hin. lia.
    + repeat (split; [done|]). apply not_elem_of_nil.
  - destruct Hfd as (f & ty & p & Hin). exists f, ty, p.
    apply elem_of_app. by left.
  - intros fd' f ty p Hin Hne. apply elem_of_app in Hin as [Hin|Hin].
    + destruct (Hothers _ _ _ _ Hin) as [->|Hclose]; [done|].
      apply elem_of_app. by left.
    + apply elem_of_cons in Hin as [[=]|Hin].
      apply list_elem_of_singleton in Hin. done.
Qed.

(** ** Accepting connections *)

Lemma accept_loop_spec (ssl : bool) :
  ∀ n i l l' r,
    accept_loop ssl n i l = (l', r) →
    ∃ k, k ≤ n
         ∧ accept_pending l' = drop k (accept_pending l)
         ∧ accept_calls l ≤ accept_calls l' ≤ accept_calls l + n
         ∧ transports l'
           = transports l ++ accepted ssl (take k (accept_pending l)).
Proof.
  induction n as [|n IH]; intros i l l' r; simpl.
  { intros [= <- <-]. exists 0. rewrite app_nil_r. repeat split; lia. }
  unfold sock_accept.
  destruct (accept_pending l) as [|answer rest] eqn:Hpending.
  - destruct (Z_in _ TRY_READ_AGAIN).
    { intros [= <- <-]. exists 0. simpl. rewrite app_nil_r.
      repeat split; lia. }
    destruct (Z_in _ [EPERM]).
    { intros Hrest. apply IH in Hrest as (k & Hk & Hp & Hc & Ht).
      simpl in *. exists 0. rewrite Hp, Ht, drop_nil, take_nil. simpl.
      repeat split; lia. }
    destruct (Z_in _ ACCEPT_ERRORS); intros [= <- <-]; exists 0; simpl;
      rewrite app_nil_r; repeat split; lia.
  - destruct answer as [conn address [e|]|e].
    + intros [= <- <-]. exists 1. simpl. rewrite drop_0, app_nil_r.
      repeat split; lia.
    + intros Hrest. apply IH in Hrest as (k & Hk & Hp & Hc & Ht).
      simpl in *. exists (S k). simpl. rewrite Hp, Ht, <- app_assoc.
      repeat split; lia.
    + assert (Hstop : ∀ l0 : Listening,
                accept_pending l0 = rest →
                accept_calls l0 = S (accept_calls l) →
                transports l0 = transports l →
                ∃ k, k ≤ S n
                     ∧ accept_pending l0 = drop k (AcceptRaises e :: rest)
                     ∧ accept_calls l ≤ accept_calls l0
                                      ≤ accept_calls l + S n
                     ∧ transports l0
                       = transports l
                         ++ accepted ssl (take k (AcceptRaises e :: rest))).
      { intros l0 Hp Hc Ht. exists 1. simpl. rewrite drop_0, Hp, Ht, app_nil_r.
        repeat split; lia. }
      destruct (is_socket_error e).
      2:{ intros [= <- <-]. by apply Hstop. }
      destruct (Z_in _ TRY_READ_AGAIN).
      { intros [= <- <-]. by apply Hstop. }
      destruct (Z_in _ [EPERM]).
      { intros Hrest. apply IH in Hrest as (k & Hk & Hp & Hc & Ht).
        simpl in *. exists (S k). simpl. rewrite Hp, Ht.
        repeat split; lia. }
      destruct (Z_in _ ACCEPT_ERRORS); intros [= <- <-]; by apply Hstop.
Qed.

(** One readiness event of a listening socket makes at most
    [NUMBER_ACCEPTS] calls of [accept]; the transports it builds are, in
    order, the connections among the answers it has consumed, each of the
    class [ssl] asks for and with the address of its peer; the answers it
    has not consumed stay pending for the next event. *)
Theorem accept_batch_is_bounded_and_ordered (ssl : bool) (l : Listening) :
  let l' := sock_accept_connection ssl l in
  accept_calls l ≤ accept_calls l' ≤ accept_calls l + NUMBER_ACCEPTS
  ∧ ∃ k, k ≤ NUMBER_ACCEPTS
         ∧ accept_pending l' = drop k (accept_pending l)
         ∧ transports l'
           = transports l ++ accepted ssl (take k (accept_pending l)).
Proof.
  unfold sock_accept_connection.
  destruct (accept_loop ssl NUMBER_ACCEPTS 0 l) as [l' [e|]] eqn:Hloop;
    apply accept_loop_spec in Hloop as (k & Hk & Hp & Hc & Ht); simpl;
    (split; [lia|]); by exists k.
Qed.

Lemma accept_loop_full (ssl : bool) :
  ∀ n i l,
    n ≤ length (accept_pending l) →
    forallb accept_ok (take n (accept_pending l)) = true →
    accept_loop ssl n i l
    = (mkListening (drop n (accept_pending l)) (accept_calls l + n)
         (transports l ++ accepted ssl (take n (accept_pending l)))
         (logged l), None).
Proof.
  induction n as [|n IH]; intros i l Hlen Hok; simpl.
  { rewrite drop_0, Nat.add_0_r, app_nil_r. by destruct l. }
  unfold sock_accept.
  destruct (accept_pending l) as [|answer rest]; simpl in *; [lia|].
  apply andb_true_iff in Hok as [Hanswer Hok].
  destruct answer as [conn address [e|]|e]; try done.
  rewrite IH; simpl; [|lia|done].
  by rewrite <- app_assoc, Nat.add_succ_r.
Qed.

Lemma accepted_length (ssl : bool) (answers : list accept_answer) :
  forallb accept_ok answers = true →
  length (accepted ssl answers) = length answers.
Proof.
  induction answers as [|[conn address [e|]|e] rest IH]; simpl; try done.
  intros Hok. by rewrite IH.
Qed.

(** A busy listener is served in batches: when at least [NUMBER_ACCEPTS]
    connections are waiting, one readiness event accepts exactly the
    first [NUMBER_ACCEPTS] of them, in order, logs nothing and leaves the
    others waiting. *)
Theorem busy_listener_accepts_one_full_batch (ssl : bool) (l : Listening) :
  NUMBER_ACCEPTS ≤ length (accept_pending l) →
  forallb accept_ok (take NUMBER_ACCEPTS (accept_pending l)) = true →
  let l' := sock_accept_connection ssl l in
  transports l'
  = transports l ++ accepted ssl (take NUMBER_ACCEPTS (accept_pending l))
  ∧ length (transports l') = length (transports l) + NUMBER_ACCEPTS
  ∧ accept_pending l' = drop NUMBER_ACCEPTS (accept_pending l)
  ∧ accept_calls l' = accept_calls l + NUMBER_ACCEPTS
  ∧ logged l' = logged l.
Proof.
  intros Hlen Hok. unfold sock_accept_connection.
  rewrite accept_loop_full by done. simpl.
  split; [done|]. split; [|done].
  rewrite length_app, accepted_length, length_take by done. lia.
Qed.

Lemma errno_of_other_exception (e : exn) :
  is_socket_error e = false → errno_of e = None.
Proof. by destruct e. Qed.

Lemma accept_loop_error (ssl : bool) (e : exn) (rest : list accept_answer) :
  Z_in (errno_of e) [EPERM] = false →
  ∀ goods n i l,
    accept_pending l = goods ++ AcceptRaises e :: rest →
    length goods < n →
    forallb accept_ok goods = true →
    accept_loop ssl n i l
    = (mkListening rest (accept_calls l + length goods + 1)
         (transports l ++ accepted ssl goods)
         (logged l
          ++ if Z_in (errno_of e) TRY_READ_AGAIN then []
             else if Z_in (errno_of e) ACCEPT_ERRORS
                  then [log_info (i + length goods + 1) e]
                  else []),
       if Z_in (errno_of e) TRY_READ_AGAIN then None
       else if Z_in (errno_of e) ACCEPT_ERRORS then None
            else Some e).
Proof.
  intros Heperm. induction goods as [|answer goods IH];
    intros n i l Hpending Hn Hok; (destruct n as [|n]; [simpl in Hn; lia|]);
    simpl; unfold sock_accept; rewrite Hpending; simpl.
  - rewrite !app_nil_r, !Nat.add_0_r, (Nat.add_1_r (accept_calls l)).
    destruct (is_socket_error e) eqn:Hsocket.
    + rewrite Heperm.
      destruct (Z_in _ TRY_READ_AGAIN); [by rewrite app_nil_r|].
      destruct (Z_in _ ACCEPT_ERRORS); simpl; [done|].
      by rewrite app_nil_r.
    + rewrite (errno_of_other_exception e Hsocket). simpl.
      by rewrite app_nil_r.
  - simpl in Hok. apply andb_true_iff in Hok as [Hanswer Hok].
    destruct answer as [conn address [e'|]|e']; try done.
    rewrite (IH n (S i)); simpl; [|done|simpl in Hn; lia|done].
    rewrite <- app_assoc.
    destruct (Z_in _ TRY_READ_AGAIN); [|destruct (Z_in _ ACCEPT_ERRORS)];
      repeat f_equal; lia.
Qed.

(** An [accept] that fails ends the batch: the connections accepted
    before it have their transports, nothing after it is accepted during
    this event, and the failure is logged according to its kind: not at
    all when the call would block, as an information with the position
    of the connection when it is one of [ACCEPT_ERRORS], and with its
    traceback otherwise.  (An [EPERM] failure is skipped instead.) *)
Theorem failed_accept_ends_the_batch (ssl : bool) (l : Listening)
    (goods rest : list accept_answer) (e : exn) :
  accept_pending l = goods ++ AcceptRaises e :: rest →
  length goods < NUMBER_ACCEPTS →
  forallb accept_ok goods = true →
  Z_in (errno_of e) [EPERM] = false →
  let l' := sock_accept_connection ssl l in
  transports l' = transports l ++ accepted ssl goods
  ∧ accept_pending l' = rest
  ∧ accept_calls l' = accept_calls l + length goods + 1
  ∧ logged l'
    = logged l
      ++ if Z_in (errno_of e) TRY_READ_AGAIN then []
         else if Z_in (errno_of e) ACCEPT_ERRORS
              then [log_info (length goods + 1) e]
              else [log_exception e].
Proof.
  intros Hpending Hlen Hok Heperm. unfold sock_accept_connection.
  rewrite (accept_loop_error ssl e rest Heperm goods) by done.
  destruct (Z_in _ TRY_READ_AGAIN);
    [|destruct (Z_in _ ACCEPT_ERRORS)]; simpl;
    rewrite ?app_nil_r; done.
Qed.

(** ** Pending connects *)

(** A connect that cannot complete at once is watched and resolved once:
    the first call makes the only [connect], registers the connector and
    returns the unresolved future; the call back from the reactor removes
    the connector, leaves those of other sockets alone and, unless the
    future was cancelled, reads the pending error of the socket once and
    resolves the future with it: [None] for success, the error
    otherwise. *)
Theorem pending_connect_is_resolved_once (e : exn) (answer : option exn)
    (cancelled0 cancelled : bool) (so_error0 so_error fd : Z)
    (address : sockaddr) (c : Connecting) :
  is_socket_error e = true →
  Z_in (errno_of e) TRY_WRITE_AGAIN = true →
  let first := sock_connect false (Some e) cancelled0 so_error0 fd address c in
  let second :=
    sock_connect true answer cancelled so_error fd address first.1 in
  first.2 = returns_future
  ∧ connectors first.1 !! fd = Some address
  ∧ resolved first.1 = resolved c
  ∧ connect_calls second.1 = connect_calls c ++ [(fd, address)]
  ∧ connectors second.1 !! fd = None
  ∧ (∀ fd', fd' ≠ fd → connectors second.1 !! fd' = connectors c !! fd')
  ∧ so_error_reads second.1
    = so_error_reads c + (if cancelled then 0 else 1)
  ∧ resolved second.1
    = resolved c
      ++ (if cancelled then []
          else [if (so_error =? 0)%Z then None
                else Some (socket_error so_error "Connect call failed")]).
Proof.
  intros Hsocket Hagain.
  assert (Hfirst :
    sock_connect false (Some e) cancelled0 so_error0 fd address c
    = (mkConnecting (<[fd:=address]> (connectors c))
                    (connect_calls c ++ [(fd, address)])
                    (so_error_reads c) (resolved c), returns_future)).
  { unfold sock_connect. by rewrite Hsocket, Hagain. }
  cbv zeta. rewrite Hfirst. simpl.
  split; [done|]. split; [by rewrite lookup_insert_eq|].
  split; [done|]. unfold sock_connect.
  assert (Hwatch : ∀ fd', fd' ≠ fd →
            delete fd (<[fd:=address]> (connectors c)) !! fd'
            = connectors c !! fd').
  { intros fd' Hne. by rewrite lookup_delete_ne, lookup_insert_ne. }
  destruct cancelled; simpl.
  { rewrite lookup_delete_eq, app_nil_r, Nat.add_0_r. done. }
  destruct (so_error =? 0)%Z; simpl;
    rewrite lookup_delete_eq, Nat.add_1_r; done.
Qed.

End Stream.

(** * The theorems at concrete inputs *)


(** The write that takes the counter from 500 to 501. *)
Lemma consecutive_writes_are_counted_unless_paused_witness :
  let t :=
    set_consecutive_writes 500
      (set_write_buffer [["a"%byte]]
         (new_transport SocketStreamTransport [] [])) in
  _consecutive_writes (write 2 11 [11%Z] ["b"%byte] t).1 = 501
  ∧ _protocol (write 2 11 [11%Z] ["b"%byte] t).1
    = [connection_lost (Some TooManyConsecutiveWrite)].
Proof.
  intros t.
  destruct (consecutive_writes_are_counted_unless_paused
              2 11 [11%Z] ["b"%byte] t) as [Hbusy _];
    [lia|discriminate|reflexivity|].
  destruct Hbusy as (_ & _ & Hcount & Habort & _);
    [reflexivity|discriminate|].
  split; [exact Hcount|].
  destruct Habort as (Hlost & _); [unfold MAX_CONSECUTIVE_WRITES; simpl; lia|].
  exact Hlost.
Defined.

(** C7 as stated fails while writing is paused.  In [t] the queue holds
    data, the [write] returns after it has enqueued, and the counter is
    not incremented.  In [u] two writes have been counted and drained,
    the queue is empty, and the [write] does not reset the counter. *)
Lemma paused_write_is_not_counted :
  let t :=
    run 2 11 [11%Z] [op_write ["a"%byte]; op_pause_writing]
        (new_transport SocketStreamTransport [] []) in
  let u :=
    run 2 11 [11%Z]
        [op_write ["a"%byte]; op_write ["b"%byte]; op_ready_write;
         op_pause_writing]
        (new_transport SocketStreamTransport
           [SendRaises would_block; SendAccepts 9; SendAccepts 9] []) in
  (_write_buffer t = [["a"%byte]]
   ∧ _write_buffer (write 2 11 [11%Z] ["b"%byte] t).1
     = [["a"%byte]; ["b"%byte]]
   ∧ _consecutive_writes (write 2 11 [11%Z] ["b"%byte] t).1
     ≠ S (_consecutive_writes t))
  ∧ (_write_buffer u = []
     ∧ _consecutive_writes u = 1
     ∧ _consecutive_writes (write 2 11 [11%Z] ["c"%byte] u).1 ≠ 0).
Proof.
  intros t u. split.
  - split; [reflexivity|]. split; [reflexivity|]. discriminate.
  - split; [reflexivity|]. split; [reflexivity|]. discriminate.
Qed.

(** A chunk is held back by a pause when the end of the stream is
    seen: whatever follows, it is the only chunk that reaches
    [data_received]. *)
Lemma eof_on_first_receive_closes_witness :
  let t :=
    run 2 11 [11%Z] [op_pause_reading; op_ready_read]
        (new_transport SocketStreamTransport []
           [RecvReturns ["a"%byte]; RecvRaises would_block; RecvReturns []]) in
  let ops :=
    [op_resume_reading; op_write ["b"%byte]; op_pause_reading;
     op_ready_read; op_resume_reading] in
  _protocol (_ready_read 11 t) = [eof_received]
  ∧ _closing (_ready_read 11 t) = true
  ∧ delivered (calls_between (_ready_read 11 t)
                 (run 2 11 [11%Z] ops (_ready_read 11 t)))
    ++ held (run 2 11 [11%Z] ops (_ready_read 11 t))
    = [["a"%byte]].
Proof.
  intros t ops.
  destruct (eof_on_first_receive_closes 2 11 [11%Z] t [])
    as (Hproto & Hclosing & _ & _ & Hafter & _); [reflexivity..|].
  split; [exact Hproto|]. split; [exact Hclosing|].
  apply (Hafter ops). left. reflexivity.
Defined.

(** C8 as stated fails when a chunk was buffered during a pause: the
    second read-ready invocation receives zero bytes first, calls
    [eof_received] and closes, and the [resume_reading] that follows
    still hands the chunk to [data_received]. *)
Lemma data_received_after_eof :
  let t :=
    run 2 11 [11%Z] [op_pause_reading; op_ready_read]
        (new_transport SocketStreamTransport []
           [RecvReturns ["a"%byte]; RecvRaises would_block; RecvReturns []]) in
  sock_recvs (_sock t) = [RecvReturns []]
  ∧ _protocol t = []
  ∧ _protocol (_ready_read 11 t) = [eof_received]
  ∧ _closing (_ready_read 11 t) = true
  ∧ _protocol (resume_reading (_ready_read 11 t)).1
    = [eof_received; data_received ["a"%byte]].
Proof. intros t. repeat split; reflexivity. Qed.

(** C2 at a failing input: a chunk that arrives during the second pause
    is not buffered; the transport is aborted instead. *)
Example second_pause_loses_the_chunk :
  let t :=
    run 2 11 [11%Z]
        [op_pause_reading; op_resume_reading; op_pause_reading;
         op_ready_read]
        (new_transport SocketStreamTransport [] [RecvReturns ["a"%byte]]) in
  _protocol t
  = [connection_lost
       (Some (AttributeError "'NoneType' object has no attribute 'append'"))]
  ∧ _read_buffer t = None.
Proof. intros t. split; reflexivity. Qed.

(** [SSL_ERROR_EOF] during the handshake. *)
Lemma fatal_ssl_handshake_error_escapes_witness :
  let t := new_transport SocketStreamSslTransport [] [] in
  let e := SSLError 8 "EOF occurred in violation of protocol" in
  _do_handshake 11 [11%Z] (HandshakeRaises e) t = (t, Raise e).
Proof.
  intros t e.
  apply (fatal_ssl_handshake_error_escapes 11 [11%Z] t e); reflexivity.
Defined.

Lemma handshake_success_registers_witness :
  let t := new_transport SocketStreamSslTransport [] [] in
  soon (_loop (_do_handshake 11 [11%Z] HandshakeDone t).1)
  = [cb_connection_made]
  ∧ _protocol (_do_handshake 11 [11%Z] HandshakeDone t).1 = [].
Proof.
  intros t.
  destruct (handshake_success_registers 11 [11%Z] t)
    as (_ & _ & _ & _ & _ & Hsoon & Hproto); [reflexivity|].
  split; [exact Hsoon|exact Hproto].
Defined.

(** C4 as stated fails when the handshake succeeds at once: nothing is
    queued, and [_ready_write] is registered all the same. *)
Lemma handshake_registers_writer_without_demand :
  let t := new_transport SocketStreamSslTransport [] [] in
  _write_buffer t = []
  ∧ writers (_loop (_do_handshake 11 [11%Z] HandshakeDone t).1) !! _sock_fd t
    = Some cb_ready_write.
Proof. intros t. split; reflexivity. Qed.

(** Two candidates refused with different errors. *)
Lemma all_candidates_failed_error_witness :
  (create_connection unreachable_net (Some "example.org") (Some 80%Z) false
                     None None new_world).2
  = Raise (socket_error_msg
      "Multiple exceptions: [Errno 111] Connection refused, [Errno 113] No route to host").
Proof.
  edestruct (all_candidates_failed_error unreachable_net
               (Some "example.org") (Some 80%Z) false None new_world)
    as (Hraise & _); [left; discriminate|reflexivity|reflexivity|].
  rewrite Hraise. reflexivity.
Defined.

Lemma empty_target_resolution_raises_IndexError_witness :
  create_connection nameless_net (Some "example.org") (Some 80%Z) false
                    None None new_world
  = (new_world, Raise (IndexError "list index out of range")).
Proof.
  apply (empty_target_resolution_raises_IndexError nameless_net
           (Some "example.org") (Some 80%Z) false new_world);
    [left; discriminate|reflexivity].
Defined.

(** The IPv4 socket is bound, the bind of the IPv6 socket fails: both
    sockets are closed. *)
Lemma bind_failure_aborts_the_whole_listener_witness :
  let result :=
    start_serving 10 true true unreachable_net (Some "") (Some 8060%Z) None
                  100 None new_world (mkLoop ∅ ∅ []) in
  result.2
  = Raise (socket_error 98
      "error while attempting to bind on address ('2001:db8::1', 8060, 0, 0): address already in use")
  ∧ sys_close 3 ∈ calls_since new_world result.1.1
  ∧ sys_close 4 ∈ calls_since new_world result.1.1.
Proof.
  intros result.
  destruct (bind_failure_aborts_the_whole_listener 10 true true
              unreachable_net (Some "") (Some 8060%Z) None 100 None
              new_world result.1.1 (mkLoop ∅ ∅ []) result.1.2 result.2
              4 addr_v6 98 "Address already in use")
    as (Hraise & _ & _ & Hclosed).
  - reflexivity.
  - vm_compute. repeat constructor.
  - reflexivity.
  - split; [exact Hraise|].
    split; [apply (Hclosed 3%Z 2%Z 1%Z 6%Z)|apply (Hclosed 4%Z 10%Z 1%Z 6%Z)];
      vm_compute; repeat constructor.
Defined.

(** ** Further properties at concrete inputs *)

(** Three writes and a write-ready event on a paused transport. *)
Lemma paused_writes_only_accumulate_witness :
  let t :=
    pause_writing (new_transport SocketStreamTransport [SendAccepts 9] []) in
  let ops :=
    [op_write ["a"; "b"; "c"]%byte; op_ready_write; op_write ["d"%byte]] in
  sock_send_calls (_sock (run 2 11 [11%Z] ops t)) = 0
  ∧ concat (_write_buffer (run 2 11 [11%Z] ops t))
    = ["a"; "b"; "c"; "d"]%byte.
Proof.
  intros t ops.
  destruct (paused_writes_only_accumulate 2 11 [11%Z] ops t)
    as (Hcalls & _ & _ & _ & Hqueue); [lia|reflexivity..|].
  split; [exact Hcalls|exact Hqueue].
Defined.

(** A write of which the socket takes one byte only. *)
Lemma queued_data_keeps_its_drain_registered_witness :
  let t := new_transport SocketStreamTransport [SendAccepts 1] [] in
  let ops := [op_write ["a"; "b"; "c"]%byte] in
  _write_buffer (run 2 11 [11%Z] ops t) = [["b"%byte]; ["c"%byte]]
  ∧ writers (_loop (run 2 11 [11%Z] ops t)) !! 7%Z = Some cb_ready_write.
Proof.
  intros t ops. split; [reflexivity|].
  apply (queued_data_keeps_its_drain_registered 2 11 [11%Z] ops t);
    [lia|reflexivity..|discriminate].
Defined.





(** A pause, two chunks and a resume. *)
Lemma first_pause_delivers_in_order_witness :
  let t :=
    new_transport SocketStreamTransport []
      [RecvReturns ["a"%byte]; RecvReturns ["b"%byte]] in
  (resume_reading (_ready_read 11 (pause_reading t))).2 = Return ()
  ∧ _protocol (resume_reading (_ready_read 11 (pause_reading t))).1
    = [data_received ["a"%byte]; data_received ["b"%byte]].
Proof.
  intros t.
  destruct (first_pause_delivers_in_order 11 t [["a"%byte]; ["b"%byte]])
    as (_ & Hreturn & Hprotocol); [|reflexivity..|].
  { repeat constructor; discriminate. }
  split; [exact Hreturn|exact Hprotocol].
Defined.

Lemma handshake_waits_announce_nothing_witness :
  let t := new_transport SocketStreamSslTransport [] [] in
  soon (_loop (handshake_steps 11 [11%Z] [want_read; want_write] t)) = []
  ∧ _protocol (handshake_steps 11 [11%Z] [want_read; want_write] t) = [].
Proof.
  intros t.
  destruct (handshake_waits_announce_nothing 11 [11%Z]
              [want_read; want_write] t)
    as (Hsoon & Hprotocol & _); [reflexivity..|].
  split; [exact Hsoon|exact Hprotocol].
Defined.

Lemma handshake_completes_after_read_waits_witness :
  let t := new_transport SocketStreamSslTransport [] [] in
  let t' :=
    handshake_steps 11 [11%Z] ([want_read; want_read] ++ [HandshakeDone]) t in
  readers (_loop t') !! 7%Z = Some cb_ready_read
  ∧ writers (_loop t') = ∅
  ∧ soon (_loop t') = [cb_connection_made].
Proof.
  intros t t'.
  destruct (handshake_completes_after_read_waits 11 [11%Z]
              [want_read; want_read] t)
    as (Hreaders & Hwriters & Hsoon & _);
    [reflexivity|discriminate|reflexivity|].
  split; [exact Hreaders|]. split; [exact Hwriters|exact Hsoon].
Defined.

(** A handshake that waits to write, then to read, then completes: the
    handshake step is still watched for write-readiness, and a further
    write-readiness event announces the connection again. *)
Lemma handshake_step_survives_mixed_waits_witness :
  let t := new_transport SocketStreamSslTransport [] [] in
  writers
    (_loop (handshake_steps 11 [11%Z]
              [want_write; want_read; HandshakeDone] t)) !! 7%Z
  = Some cb_do_handshake
  ∧ soon
      (_loop (handshake_steps 11 [11%Z]
                [want_write; want_read; HandshakeDone; HandshakeDone] t))
    = [cb_connection_made; cb_connection_made].
Proof.
  intros t.
  destruct (handshake_step_survives_mixed_waits 11 [11%Z]
              want_write want_read t)
    as (Hwriters & _ & _ & Htwice); [reflexivity..|].
  split; [exact Hwriters|exact Htwice].
Defined.

(** The first candidate is refused, the second one connects. *)
Lemma connected_candidate_is_the_only_socket_left_witness :
  let started :=
    create_connection reachable_net (Some "example.org") (Some 80%Z) false
                      None None new_world in
  started.2 = Return (SocketStreamTransport, 4%Z)
  ∧ sys_close 3 ∈ calls_since new_world started.1
  ∧ sys_close 4 ∉ calls_since new_world started.1.
Proof.
  intros started. split; [reflexivity|].
  destruct (connected_candidate_is_the_only_socket_left reachable_net
              (Some "example.org") (Some 80%Z) false None new_world
              started.1 SocketStreamTransport 4)
    as (_ & _ & Hopen & _ & Hothers); [left; discriminate|reflexivity|].
  split; [|exact Hopen].
  apply (Hothers 3%Z 2%Z 1%Z 6%Z); [|lia].
  vm_compute. repeat constructor.
Defined.

(** Two addresses, one of them IPv6. *)
Lemma successful_startup_makes_exactly_these_calls_witness :
  let started :=
    start_serving 10 true true reachable_net (Some "localhost")
                  (Some 8060%Z) None 100 None new_world new_loop in
  started.2 = Return [3%Z; 4%Z]
  ∧ calls_since new_world started.1.1
    = [sys_socket 3 2 1 6; sys_setsockopt 3 SO_REUSEADDR;
       sys_bind 3 addr_v4;
       sys_socket 4 10 1 6; sys_setsockopt 4 SO_REUSEADDR;
       sys_setsockopt 4 IPV6_V6ONLY; sys_bind 4 addr_v6;
       sys_listen 3 100; sys_setblocking 3 false;
       sys_listen 4 100; sys_setblocking 4 false].
Proof.
  intros started. split; [reflexivity|].
  destruct (successful_startup_makes_exactly_these_calls 10 true true
              reachable_net (Some "localhost") (Some 8060%Z) 100 None
              new_world started.1.1 new_loop started.1.2 [3%Z; 4%Z]
              [info_v4; info_v6])
    as (_ & Hcalls & _); [left; discriminate|reflexivity..|].
  exact Hcalls.
Defined.

Lemma prebuilt_sockets_are_only_listened_on_witness :
  start_serving 10 true true nameless_net None None
                (Some (inr [5%Z; 6%Z])) 100 None new_world new_loop
  = (mkWorld 3 [sys_listen 5 100; sys_setblocking 5 false;
                sys_listen 6 100; sys_setblocking 6 false],
     accepting [5%Z; 6%Z] new_loop, Return [5%Z; 6%Z]).
Proof.
  destruct (prebuilt_sockets_are_only_listened_on 10 true true nameless_net
              [5%Z; 6%Z] 100 None new_world new_loop)
    as (Hlisten & _); [discriminate|reflexivity|exact Hlisten].
Defined.

(** The second [listen] fails: both sockets stay open and the first one
    is served. *)
Lemma listen_failure_leaves_the_sockets_open_witness :
  let started :=
    start_serving 10 true true deaf_net (Some "localhost") (Some 8060%Z)
                  None 100 None new_world new_loop in
  started.2 = Raise (socket_error 98 "Address already in use")
  ∧ readers started.1.2 !! 3%Z = Some cb_sock_accept_connection
  ∧ ∀ fd, sys_close fd ∉ calls_since new_world started.1.1.
Proof.
  intros started. split; [reflexivity|].
  assert (Hlistened : sys_listen 3 100 ∈ calls_since new_world started.1.1).
  { vm_compute. repeat constructor. }
  destruct (listen_failure_leaves_the_sockets_open 10 true true deaf_net
              (Some "localhost") (Some 8060%Z) None 100 None new_world
              started.1.1 new_loop started.1.2
              (socket_error 98 "Address already in use") 3)
    as (Hopen & _ & Hserved); [reflexivity|exact Hlistened|].
  split; [|exact Hopen].
  destruct (Hserved 3%Z) as [Hreader _]; [exact Hlistened|reflexivity|].
  exact Hreader.
Defined.

(** Three connections wait, two are accepted per event. *)
Lemma busy_listener_accepts_one_full_batch_witness :
  let l :=
    mkListening
      [AcceptReturns 8 addr_v4 None; AcceptReturns 9 addr_v6 None;
       AcceptReturns 10 addr_v4 None] 0 [] [] in
  let l' := sock_accept_connection 11 2 [11%Z] 1 [24%Z; 23%Z] true l in
  transports l'
  = [(SocketStreamSslTransport, 8%Z, addr_v4);
     (SocketStreamSslTransport, 9%Z, addr_v6)]
  ∧ accept_pending l' = [AcceptReturns 10 addr_v4 None].
Proof.
  intros l l'.
  destruct (busy_listener_accepts_one_full_batch 11 2 [11%Z] 1 [24%Z; 23%Z]
              true l)
    as (Htransports & _ & Hpending & _); [simpl; lia|reflexivity|].
  split; [exact Htransports|exact Hpending].
Defined.

(** The process runs out of descriptors at the second connection. *)
Lemma failed_accept_ends_the_batch_witness :
  let e := socket_error 24 "Too many open files" in
  let l :=
    mkListening
      [AcceptReturns 8 addr_v4 None; AcceptRaises e;
       AcceptReturns 9 addr_v6 None] 0 [] [] in
  let l' := sock_accept_connection 11 3 [11%Z] 1 [24%Z; 23%Z] false l in
  transports l' = [(SocketStreamTransport, 8%Z, addr_v4)]
  ∧ logged l' = [log_info 2 e].
Proof.
  intros e l l'.
  destruct (failed_accept_ends_the_batch 11 3 [11%Z] 1 [24%Z; 23%Z] false l
              [AcceptReturns 8 addr_v4 None] [AcceptReturns 9 addr_v6 None]
              e)
    as (Htransports & _ & _ & Hlogged);
    [reflexivity|simpl; lia|reflexivity..|].
  split; [exact Htransports|exact Hlogged].
Defined.

(** A connect in progress that the peer then refuses. *)
Lemma pending_connect_is_resolved_once_witness :
  let e := socket_error 115 "Operation now in progress" in
  let first :=
    sock_connect [11%Z; 115%Z] false (Some e) false 0 7 addr_v4
                 (mkConnecting ∅ [] 0 []) in
  let second :=
    sock_connect [11%Z; 115%Z] true None false 111 7 addr_v4 first.1 in
  connectors first.1 !! 7%Z = Some addr_v4
  ∧ connectors second.1 !! 7%Z = None
  ∧ resolved second.1 = [Some (socket_error 111 "Connect call failed")].
Proof.
  intros e first second.
  destruct (pending_connect_is_resolved_once [11%Z; 115%Z] e None false
              false 0 111 7 addr_v4 (mkConnecting ∅ [] 0 []))
    as (_ & Hwatched & _ & _ & Hremoved & _ & _ & Hresolved);
    [reflexivity..|].
  split; [exact Hwatched|]. split; [exact Hremoved|exact Hresolved].
Defined.
